(** * The PROS serial driver (src/system/dev/ser_driver.c)

    A shallow embedding of the serial driver: the output queue and its
    flush, the newlib read and write entry points, [ser_open_r] and
    [serctl].  Every function is a Rocq function over an explicit driver
    state; what the driver calls but does not own (the mutex and queue
    primitives of the kernel, the COBS codec, the VEX serial transport,
    the inbound byte source of the serial daemon) is kept apart and named
    as such. *)

From stdpp Require Import gmap list strings.
From Stdlib Require Import ZArith Lia Ascii.

Local Open Scope Z_scope.
Set Default Proof Using "Type".

(** ** Data *)

(** [ser_file_s_t]: the first word is the stream id (four characters read
    as a little-endian 32-bit integer), the second the flag word. *)
Record ser_file_s_t := { stream_id : Z; flags : Z }.

Definition E_NOBLK_WRITE : Z := 1.
Definition E_COBS_ENABLED : Z := 1.

Definition VEX_SERIAL_BUFFER_SIZE : nat := 2047.

Definition STDIN_STREAM_ID : Z := 0x706e6973.
Definition STDOUT_STREAM_ID : Z := 0x74756f73.
Definition STDERR_STREAM_ID : Z := 0x72726573.
Definition KDBG_STREAM_ID : Z := 0x6762646b.

Definition RESERVED_SER_FILES : list ser_file_s_t :=
  [ {| stream_id := STDIN_STREAM_ID; flags := 0 |};
    {| stream_id := STDOUT_STREAM_ID; flags := 0 |};
    {| stream_id := STDERR_STREAM_ID; flags := 0 |};
    {| stream_id := KDBG_STREAM_ID; flags := 0 |} ].

Definition guaranteed_delivery_streams : list Z := [ STDERR_STREAM_ID ].
Definition guaranteed_delivery_streams_size : nat :=
  length guaranteed_delivery_streams.

(** The reserved descriptors of unistd.h. *)
Definition STDIN_FILENO : Z := 0.
Definition STDOUT_FILENO : Z := 1.
Definition STDERR_FILENO : Z := 2.

(** The error codes the driver stores in [r->_errno]; only their names
    matter here. *)
Inductive errno_t := EACCES | EIO | ENAMETOOLONG | ESPIPE.

(** Modelled from the spec: the kernel's timeout constant of kapi.h is not
    part of the sources; it is the "indefinite" timeout of a blocking
    primitive, the largest 32-bit value. *)
Definition TIMEOUT_MAX : Z := 0xffffffff.

Inductive mutex_t := read_mtx | write_mtx.

(** What a call does to the two locks, in order: the timeout each
    [mutex_take] was given and whether it got the lock. *)
Inductive event :=
| MutexTake (m : mutex_t) (timeout : Z) (taken : bool)
| MutexGive (m : mutex_t).

(** Modelled from the spec: the queue primitive of kapi.h is not part of
    the sources; it is a bounded FIFO byte queue with a fixed capacity. *)
Record queue_t := { q_items : list Z; q_capacity : nat }.

(** The driver's globals, the memory holding the handle records
    ([files a] is the record at address [a]), the [_errno] cell of the
    reentrancy structure ([None]: none of the driver's codes), the bytes
    and no-data signals that [inp_buffer_read] is going to deliver, and the
    lock events so far. *)
Record state := {
  enabled_streams_set : gset Z;
  ser_driver_runtime_config : Z;
  write_queue : queue_t;
  files : Z → ser_file_s_t;
  _errno : option errno_t;
  inp_buffer : list Z;
  trace : list event
}.

Definition set_enabled_streams_set (st : state) (s : gset Z) : state :=
  {| enabled_streams_set := s;
     ser_driver_runtime_config := ser_driver_runtime_config st;
     write_queue := write_queue st; files := files st; _errno := _errno st;
     inp_buffer := inp_buffer st; trace := trace st |}.

Definition set_runtime_config (st : state) (c : Z) : state :=
  {| enabled_streams_set := enabled_streams_set st;
     ser_driver_runtime_config := c;
     write_queue := write_queue st; files := files st; _errno := _errno st;
     inp_buffer := inp_buffer st; trace := trace st |}.

Definition set_write_queue (st : state) (q : queue_t) : state :=
  {| enabled_streams_set := enabled_streams_set st;
     ser_driver_runtime_config := ser_driver_runtime_config st;
     write_queue := q; files := files st; _errno := _errno st;
     inp_buffer := inp_buffer st; trace := trace st |}.

Definition set_errno (st : state) (e : errno_t) : state :=
  {| enabled_streams_set := enabled_streams_set st;
     ser_driver_runtime_config := ser_driver_runtime_config st;
     write_queue := write_queue st; files := files st; _errno := Some e;
     inp_buffer := inp_buffer st; trace := trace st |}.

Definition set_inp_buffer (st : state) (i : list Z) : state :=
  {| enabled_streams_set := enabled_streams_set st;
     ser_driver_runtime_config := ser_driver_runtime_config st;
     write_queue := write_queue st; files := files st; _errno := _errno st;
     inp_buffer := i; trace := trace st |}.

Definition log (st : state) (e : event) : state :=
  {| enabled_streams_set := enabled_streams_set st;
     ser_driver_runtime_config := ser_driver_runtime_config st;
     write_queue := write_queue st; files := files st; _errno := _errno st;
     inp_buffer := inp_buffer st; trace := trace st ++ [e] |}.

(** ** The primitives the driver calls *)

(** Modelled from the spec: common/set.h is not part of the sources; the
    registry is a set of stream tags, insertion order irrelevant,
    membership-tested only. *)
Definition set_contains (s : gset Z) (item : Z) : bool := bool_decide (item ∈ s).
Definition set_add (s : gset Z) (item : Z) : gset Z := {[ item ]} ∪ s.
Definition set_rm (s : gset Z) (item : Z) : gset Z := s ∖ {[ item ]}.

(** Modelled from the spec: [list_contains] of common/set.h is not part of
    the sources; it tells whether [item] is among the first [size] entries
    of the array. *)
Definition list_contains (l : list Z) (size : nat) (item : Z) : bool :=
  existsb (Z.eqb item) (take size l).

(** How a [queue_append] ends: with the byte at the tail of the queue,
    with a failure, or not at all. *)
Inductive queue_append_t :=
| Appended (q : queue_t)
| QueueFull
| QueueWaits.

(** Modelled from the spec: [queue_append] pushes one byte at the tail
    when the queue has room.  On a full queue it waits for room as long as
    its timeout allows: with the indefinite timeout [TIMEOUT_MAX] it waits
    without end, since no consumer runs inside a call; with any other
    timeout it reports failure. *)
Definition queue_append (q : queue_t) (item : Z) (timeout : Z) : queue_append_t :=
  if (length (q_items q) <? q_capacity q)%nat
  then Appended {| q_items := q_items q ++ [item]; q_capacity := q_capacity q |}
  else if timeout =? TIMEOUT_MAX then QueueWaits
  else QueueFull.

(** Modelled from the spec: [queue_recv] with a null destination and a
    zero timeout drops the byte at the head, if there is one. *)
Definition queue_recv (q : queue_t) : queue_t :=
  {| q_items := tail (q_items q); q_capacity := q_capacity q |}.

(** Modelled from the spec: [queue_reset] drops all buffered bytes. *)
Definition queue_reset (q : queue_t) : queue_t :=
  {| q_items := []; q_capacity := q_capacity q |}.

(** Modelled from the spec: [queue_get_waiting] is the number of bytes the
    queue holds. *)
Definition queue_get_waiting (q : queue_t) : Z := Z.of_nat (length (q_items q)).

Section SerDriver.

(** The collaborators of the driver that are decided outside of it. *)

(** The COBS codec of common/cobs.h: the bytes [cobs_encode] writes for a
    payload and a stream tag. *)
Variable cobs_encode : list Z → Z → list Z.

(** Modelled from the spec: [cobs_encode_measure] computes the exact
    encoded length for a payload and a tag. *)
Definition cobs_encode_measure (src : list Z) (prefix : Z) : nat :=
  length (cobs_encode src prefix).

(** Whether a [mutex_take] of the given lock with the given timeout gets
    the lock before the timeout runs out: decided by the other tasks. *)
Variable mutex_take_ok : mutex_t → Z → bool.

(** The transport: the free space [vexSerialWriteFree] reports, and the
    number of bytes [vexSerialWriteBuffer] accepts out of a given number
    offered, both as the unsigned 32-bit values the driver compares. *)
Variable vexSerialWriteFree : Z.
Variable vexSerialWriteBuffer : Z → Z.

(** Modelled from the spec: the mutex primitives of kapi.h are not part of
    the sources; a lock is exclusive and taken with a timeout.  A call
    sees of it whether its request was granted; the request and the
    release are logged. *)
Definition mutex_take (st : state) (m : mutex_t) (timeout : Z) : bool * state :=
  let ok := mutex_take_ok m timeout in
  (ok, log st (MutexTake m timeout ok)).

Definition mutex_give (st : state) (m : mutex_t) : state :=
  log st (MutexGive m).

(** ** Output queue *)

Definition ser_output_flush (st : state) : state :=
  let waiting := queue_get_waiting (write_queue st) in
  if negb (waiting =? 0) && (waiting <=? vexSerialWriteFree) then
    let ret := vexSerialWriteBuffer waiting in
    if ret =? waiting then
      set_write_queue st (queue_reset (write_queue st))
    else
      (* while (ret--) queue_recv(write_queue, NULL, 0); *)
      set_write_queue st (Nat.iter (Z.to_nat ret) queue_recv (write_queue st))
  else st.

(** [ser_output_write]: the value it returns and the queue it leaves;
    [None] when it does not return because a push waits, with the queue
    as it is then. *)
Fixpoint ser_output_write (q : queue_t) (buffer : list Z) (noblock : bool)
  : option bool * queue_t :=
  match buffer with
  | [] => (Some true, q)
  | b :: buffer' =>
      match queue_append q b (if noblock then 0 else TIMEOUT_MAX) with
      | QueueFull => (Some false, q)
      | QueueWaits => (None, q)
      | Appended q' => ser_output_write q' buffer' noblock
      end
  end.

(** ** newlib driver functions *)

(** [file.flags & E_NOBLK_WRITE], as a truth value. *)
Definition noblk_write (file : ser_file_s_t) : bool :=
  negb (Z.land (flags file) E_NOBLK_WRITE =? 0).

(** The part of [ser_write_r] below the policy filter.  [buf] is the
    [len] bytes the caller passes; [len] is the size of an object of the
    32-bit target, so returning it as an [int] does not change it.  The
    result is the value returned and the state; for a call that does not
    return because [ser_output_write] waits, it is [None] and the state in
    which the call waits, the lock still held. *)
Definition ser_write_r_send (st : state) (file : ser_file_s_t) (buf : list Z)
  : option Z * state :=
  let len := Z.of_nat (length buf) in
  (* if (ser_driver_runtime_config &= E_COBS_ENABLED) *)
  let st := set_runtime_config st (Z.land (ser_driver_runtime_config st) E_COBS_ENABLED) in
  if negb (ser_driver_runtime_config st =? 0) then
    let cobs_len := cobs_encode_measure buf (stream_id file) in
    let '(taken, st) :=
      mutex_take st write_mtx (if noblk_write file then 0 else TIMEOUT_MAX) in
    if negb taken then (Some 0, set_errno st EACCES)
    else
      let cobs_buf := cobs_encode buf (stream_id file) ++ [0] in
      let '(ret, q) :=
        ser_output_write (write_queue st) (take (cobs_len + 1) cobs_buf) (noblk_write file) in
      match ret with
      | None => (None, set_write_queue st q)
      | Some ret =>
          let st := mutex_give (set_write_queue st q) write_mtx in
          if negb ret then (Some 0, set_errno st EIO) else (Some len, st)
      end
  else
    let '(taken, st) := mutex_take st write_mtx TIMEOUT_MAX in
    if negb taken then (Some 0, set_errno st EACCES)
    else
      let '(ret, q) := ser_output_write (write_queue st) buf (noblk_write file) in
      match ret with
      | None => (None, set_write_queue st q)
      | Some ret =>
          let st := mutex_give (set_write_queue st q) write_mtx in
          if negb ret then (Some 0, set_errno st EIO) else (Some len, st)
      end.

Definition ser_write_r (st : state) (arg : Z) (buf : list Z)
  : option Z * state :=
  let len := Z.of_nat (length buf) in
  let file := files st arg in
  if negb (list_contains guaranteed_delivery_streams guaranteed_delivery_streams_size
             (stream_id file))
     && negb (set_contains (enabled_streams_set st) (stream_id file))
  then
    (* the stream isn't a guaranteed delivery or hasn't been enabled *)
    (Some len, st)
  else ser_write_r_send st file buf.

(** The [while (read < len)] loop of [ser_read_r].  The pointer [buffer]
    and the counter [read] advance together, so a store through [buffer]
    is a store at offset [read] of the caller's buffer; [stores] collects
    them in order.  Each iteration calls [inp_buffer_read(0)] of the
    serial daemon once: it takes the next of the deliveries [inp], a byte
    or -1 for "no data".  The result is [None] when the deliveries are
    used up inside the loop: the caller is still polling. *)
Fixpoint ser_read_loop (len read : nat) (stores : list (nat * Z)) (inp : list Z)
  : option (nat * list (nat * Z) * list Z) :=
  if (read <? len)%nat then
    (* c = inp_buffer_read(0); *)
    match inp with
    | [] => None
    | c :: inp' =>
        if c =? -1 then
          if negb (read =? 0)%nat then Some (read, stores, inp')
          else ser_read_loop len read stores inp'
        else
          (* *(buffer++) = (uint8_t)c; read++; *)
          let stores' := stores ++ [(read, c `mod` 256)] in
          if c =? 10 then Some (S read, stores', inp')
          else ser_read_loop len (S read) stores' inp'
    end
  else Some (read, stores, inp).

(** [ser_read_r]: the value returned, the stores made into the caller's
    buffer (offset and byte) and the new state; [None] while the loop is
    still polling at the end of the recorded deliveries. *)
Definition ser_read_r (st : state) (len : nat)
  : option (Z * list (nat * Z) * state) :=
  let '(taken, st) := mutex_take st read_mtx TIMEOUT_MAX in
  if negb taken then Some (0, [], set_errno st EACCES)
  else
    match ser_read_loop len 0 [] (inp_buffer st) with
    | None => None
    | Some (read, stores, inp') =>
        let st := mutex_give (set_inp_buffer st inp') read_mtx in
        (* *buffer = 0; *)
        Some (Z.of_nat read, stores ++ [(read, 0)], st)
    end.

(** The caller's buffer as the memory it owns: a store at an offset
    outside of it is out of bounds ([None]). *)
Definition store (mem : list Z) (s : nat * Z) : option (list Z) :=
  if (s.1 <? length mem)%nat then Some (<[s.1 := s.2]> mem) else None.

Fixpoint store_all (mem : list Z) (stores : list (nat * Z)) : option (list Z) :=
  match stores with
  | [] => Some mem
  | s :: stores' =>
      match store mem s with
      | None => None
      | Some mem' => store_all mem' stores'
      end
  end.

Definition ser_close_r (st : state) (arg : Z) : Z * state := (0, st).

Definition ser_isatty_r (st : state) (arg : Z) : Z * state := (1, st).

Definition ser_lseek_r (st : state) (arg : Z) (ptr dir : Z) : Z * state :=
  (-1, set_errno st ESPIPE).


(** ** Opening a stream *)

Definition NUL : ascii := Ascii.zero.

(** [path[i]]: a path is the characters of the string followed by its
    terminator. *)
Definition char_at (path : string) (i : nat) : ascii :=
  default NUL (String.get i path).

(** [path++] *)
Definition advance (path : string) : string :=
  match path with
  | EmptyString => EmptyString
  | String _ path' => path'
  end.

(** The characters before the first terminator: what [strlen], [strcmp]
    and [memcpy(_, path, strlen(path))] see of a path. *)
Fixpoint c_str (path : string) : string :=
  match path with
  | EmptyString => EmptyString
  | String c path' =>
      if Ascii.eqb c NUL then EmptyString else String c (c_str path')
  end.

Definition strlen (path : string) : nat := String.length (c_str path).

(** [strcmp(a, b)] is zero *)
Definition strcmp_eq (a b : string) : bool := String.eqb (c_str a) (c_str b).

(** [for (i = 0; i < 4; i++) if (path[i] == '\0') break;], entered at [i]
    with [n] possible iterations left; the value is the final [i]. *)
Fixpoint ser_open_scan (path : string) (i n : nat) : nat :=
  match n with
  | O => i
  | S n' =>
      if Ascii.eqb (char_at path i) NUL then i
      else ser_open_scan path (S i) n'
  end.

(** How [ser_open_r] ends: with one of the reserved descriptors, with -1
    and an error code in [r->_errno], or in the call of
    [vfs_add_entry_r] on a fresh record whose [stream] bytes start with
    the characters copied from the path. *)
Inductive open_result :=
| OpenFd (fd : Z)
| OpenError (e : errno_t)
| OpenEntry (stream : string).

Definition ser_open_r (path : string) : open_result :=
  if Ascii.eqb (char_at path 0) NUL then OpenFd STDOUT_FILENO
  else
    let path := if Ascii.eqb (char_at path 0) "/" then advance path else path in
    let i := ser_open_scan path 0 4 in
    if negb (Ascii.eqb (char_at path i) NUL) then OpenError ENAMETOOLONG
    else if strcmp_eq path "sout" then OpenFd STDOUT_FILENO
    else if strcmp_eq path "sin" then OpenFd STDIN_FILENO
    else if strcmp_eq path "serr" then OpenFd STDERR_FILENO
    else OpenEntry (c_str path).

(** ** Control *)

(** The verbs of system/dev/ser.h; [SERCTL_OTHER] is any other action
    code. *)
Inductive serctl_action :=
| SERCTL_ACTIVATE | SERCTL_DEACTIVATE
| SERCTL_BLKWRITE | SERCTL_NOBLKWRITE
| SERCTL_ENABLE_COBS | SERCTL_DISABLE_COBS
| SERCTL_OTHER (code : Z).

Definition with_flags (file : ser_file_s_t) (f : Z) : ser_file_s_t :=
  {| stream_id := stream_id file; flags := f |}.

(** [serctl].  [arg] is the address of a handle record or 0 (null);
    [file] is the function's local copy of that record, indeterminate
    ([None]) when [arg] is null.  The result is the [uint32_t] returned,
    so -1 is [0xffffffff]. *)
Definition serctl (st : state) (arg : Z) (action : serctl_action) (parameter : Z)
  : Z * state :=
  let file : option ser_file_s_t :=
    if arg =? 0 then None else Some (files st arg) in
  match action with
  | SERCTL_ACTIVATE =>
      if negb (list_contains guaranteed_delivery_streams
                 guaranteed_delivery_streams_size parameter)
      then (0, set_enabled_streams_set st (set_add (enabled_streams_set st) parameter))
      else (0, st)
  | SERCTL_DEACTIVATE =>
      if negb (list_contains guaranteed_delivery_streams
                 guaranteed_delivery_streams_size parameter)
      then (0, set_enabled_streams_set st (set_rm (enabled_streams_set st) parameter))
      else (0, st)
  | SERCTL_BLKWRITE =>
      (* file.flags &= ~E_NOBLK_WRITE; on the local copy *)
      let file := (λ f, with_flags f (Z.land (flags f) (Z.lnot E_NOBLK_WRITE))) <$> file in
      (0, st)
  | SERCTL_NOBLKWRITE =>
      (* file.flags |= E_NOBLK_WRITE; on the local copy *)
      let file := (λ f, with_flags f (Z.lor (flags f) E_NOBLK_WRITE)) <$> file in
      (0, st)
  | SERCTL_ENABLE_COBS =>
      (0, set_runtime_config st (Z.lor (ser_driver_runtime_config st) E_COBS_ENABLED))
  | SERCTL_DISABLE_COBS =>
      (0, set_runtime_config st
            (Z.land (ser_driver_runtime_config st) (Z.lnot E_COBS_ENABLED)))
  | SERCTL_OTHER _ => (0xffffffff, st)
  end.

(** [ser_driver_initialize], on the globals it sets up: framing on, the
    registry holding the standard-output tag, an empty queue of
    [VEX_SERIAL_BUFFER_SIZE] bytes. *)
Definition ser_driver_initialize (st : state) : state :=
  let st := set_runtime_config st (Z.lor (ser_driver_runtime_config st) E_COBS_ENABLED) in
  let st := set_enabled_streams_set st (set_add ∅ STDOUT_STREAM_ID) in
  set_write_queue st {| q_items := []; q_capacity := VEX_SERIAL_BUFFER_SIZE |}.

(** A memory in which [RESERVED_SER_FILES] sits at [base], two words per
    record, and every other address reads as a zeroed record. *)
Definition reserved_files_at (base : Z) (a : Z) : ser_file_s_t :=
  if (base <=? a) && ((a - base) `mod` 8 =? 0)
  then default {| stream_id := 0; flags := 0 |}
         (RESERVED_SER_FILES !! Z.to_nat ((a - base) `div` 8))
  else {| stream_id := 0; flags := 0 |}.

(** The state after [ser_driver_initialize] on a system with the handle
    records [mem] and the inbound deliveries [inp]. *)
Definition boot (mem : Z → ser_file_s_t) (inp : list Z) : state :=
  ser_driver_initialize
    {| enabled_streams_set := ∅; ser_driver_runtime_config := 0;
       write_queue := {| q_items := []; q_capacity := 0 |};
       files := mem; _errno := None;
       inp_buffer := inp; trace := [] |}.

(** A memory in which every handle is a standard-output handle with the
    non-blocking flag set. *)
Definition noblk_stdout_files (a : Z) : ser_file_s_t :=
  {| stream_id := STDOUT_STREAM_ID; flags := E_NOBLK_WRITE |}.

(** Collaborators to run the driver with: a codec that emits the payload
    as it is, tasks that leave every lock free, tasks that hold every
    lock. *)
Definition plain_codec (src : list Z) (prefix : Z) : list Z := src.
Definition locks_free (m : mutex_t) (timeout : Z) : bool := true.
Definition locks_held (m : mutex_t) (timeout : Z) : bool := false.

(** ** What the specification calls things *)

(** A stream passes the policy filter when its tag is a guaranteed-delivery
    tag or is in the registry. *)
Definition stream_enabled (st : state) (id : Z) : Prop :=
  id ∈ guaranteed_delivery_streams ∨ id ∈ enabled_streams_set st.

(** Framing is on when the framing bit of the runtime configuration is
    set. *)
Definition framing_enabled (st : state) : bool :=
  negb (Z.land (ser_driver_runtime_config st) E_COBS_ENABLED =? 0).

(** The write path's lock timeout in the specification's words:
    indefinite when framing is disabled; otherwise zero for a non-blocking
    handle and indefinite for a blocking one. *)
Definition write_lock_timeout (st : state) (file : ser_file_s_t) : Z :=
  if framing_enabled st then (if noblk_write file then 0 else TIMEOUT_MAX)
  else TIMEOUT_MAX.

(** The bytes a queue holds once [buffer] was pushed with room for all
    of it. *)
Definition enqueue (q : queue_t) (buffer : list Z) : queue_t :=
  {| q_items := q_items q ++ buffer; q_capacity := q_capacity q |}.

Definition has_room (q : queue_t) (buffer : list Z) : Prop :=
  (length (q_items q) + length buffer ≤ q_capacity q)%nat.

(** The path [ser_open_r] goes on with once it has skipped one leading
    '/'. *)
Definition strip_slash (path : string) : string :=
  if Ascii.eqb (char_at path 0) "/" then advance path else path.

(** The stores that accumulating [data] from offset [off] on makes. *)
Fixpoint stores_from (off : nat) (data : list Z) : list (nat * Z) :=
  match data with
  | [] => []
  | c :: data' => (off, c `mod` 256) :: stores_from (S off) data'
  end.

(** How the accumulation of the bytes [body] and then [c] comes to its
    end, and what it leaves of the deliveries [rest] that follow: at a
    newline, at a full buffer, or at a no-data signal, which is consumed. *)
Inductive read_stop (len : nat) (body : list Z) (c : Z) (rest : list Z)
  : list Z → Prop :=
| stop_newline : c = 10 → read_stop len body c rest rest
| stop_full : S (length body) = len → read_stop len body c rest rest
| stop_no_data rest' :
    c ≠ 10 → (S (length body) < len)%nat → rest = -1 :: rest' →
    read_stop len body c rest rest'.

(** The bytes a write puts on the wire: the encoded payload and tag with
    the zero delimiter when framing is on, the payload itself when it is
    off. *)
Definition wire_bytes (st : state) (file : ser_file_s_t) (buf : list Z) : list Z :=
  if framing_enabled st then cobs_encode buf (stream_id file) ++ [0] else buf.

(** A queue holds no more than its capacity. *)
Definition queue_within_capacity (q : queue_t) : Prop :=
  (length (q_items q) ≤ q_capacity q)%nat.

(** The bytes among deliveries of the inbound source: all but the no-data
    signals. *)
Definition delivered_bytes (deliveries : list Z) : list Z :=
  filter (λ c, c ≠ -1) deliveries.

(** * The ADI driver (src/devices/vdml_adi.c)

    The functions for the eight three-wire ports.  What lies behind
    [claim_port], [return_port] and the [vexDeviceAdi...] calls is not part
    of the sources: whether [claim_port] claims the internal port and what
    the device reports are taken as given, and the calls that hand
    something to the device are recorded in order. *)

Definition ADI_MOTOR_MAX_SPEED : Z := 127.
Definition ADI_MOTOR_MIN_SPEED : Z := -128.

(** [PROS_ERR] of the API header: [INT32_MAX]. *)
Definition PROS_ERR : Z := 2147483647.

(** The values of the integer types that the file computes with. *)
Definition uint8 (x : Z) : Z := x `mod` 256.
Definition int8 (x : Z) : Z := (x + 128) `mod` 256 - 128.
Definition uint32 (x : Z) : Z := x `mod` 2 ^ 32.
Definition int32 (x : Z) : Z := (x + 2 ^ 31) `mod` 2 ^ 32 - 2 ^ 31.

(** The port configurations that the file names; [E_ADI_OTHER] is any
    other value of the type, [PROS_ERR] converted to it included. *)
Inductive adi_port_config_e_t :=
| E_ADI_ANALOG_IN | E_ADI_ANALOG_OUT | E_ADI_DIGITAL_IN | E_ADI_DIGITAL_OUT
| E_ADI_SMART_BUTTON | E_ADI_SMART_POT
| E_ADI_LEGACY_BUTTON | E_ADI_LEGACY_POT | E_ADI_LEGACY_LINE_SENSOR
| E_ADI_LEGACY_LIGHT_SENSOR | E_ADI_LEGACY_ACCELEROMETER
| E_ADI_LEGACY_SERVO | E_ADI_LEGACY_PWM
| E_ADI_LEGACY_ENCODER | E_ADI_LEGACY_ULTRASONIC
| E_ADI_TYPE_UNDEFINED
| E_ADI_OTHER (code : Z).

#[local] Instance adi_port_config_eq_dec : EqDecision adi_port_config_e_t.
Proof. solve_decision. Defined.

(** The pin modes of [adi_pin_mode]; [MODE_OTHER] is any other value. *)
Inductive adi_pin_mode_t :=
| INPUT | OUTPUT | INPUT_ANALOG | OUTPUT_ANALOG | MODE_OTHER (code : Z).

(** How a function of the file returns: with a value, with [PROS_ERR], or
    with [PROS_ERR] after it has set [errno] to [EINVAL]. *)
Inductive adi_ret (A : Type) :=
| AdiRet (v : A)
| AdiErr
| AdiEinval.
Arguments AdiRet {A} v.
Arguments AdiErr {A}.
Arguments AdiEinval {A}.

(** A call that hands a configuration or a value to the device. *)
Inductive adi_call :=
| PortConfigSet (port : Z) (type : adi_port_config_e_t)
| PortValueSet (port : Z) (value : Z).

(** The scratch bytes of the registered devices ([adi_pad d i] is
    [registry_get_device(d)->pad[i]]); the answers of the device layer:
    the configuration it reports for a port, the value it reports for a
    port at the k-th reading; [adi_set_answer] is 1 when [claim_port]
    claims the internal port for a set call, and any other value when it
    does not and returns [PROS_ERR] in the function's place; the number of
    readings taken so far and the set calls made so far. *)
Record adi_t := {
  adi_pad : Z → Z → Z;
  adi_config : Z → adi_port_config_e_t;
  adi_value : nat → Z → Z;
  adi_set_answer : Z;
  adi_reads : nat;
  adi_calls : list adi_call
}.

Definition adi_with_pad (st : adi_t) (pad : Z → Z → Z) : adi_t :=
  {| adi_pad := pad; adi_config := adi_config st; adi_value := adi_value st;
     adi_set_answer := adi_set_answer st; adi_reads := adi_reads st;
     adi_calls := adi_calls st |}.

Definition adi_with_reads (st : adi_t) (n : nat) : adi_t :=
  {| adi_pad := adi_pad st; adi_config := adi_config st; adi_value := adi_value st;
     adi_set_answer := adi_set_answer st; adi_reads := n;
     adi_calls := adi_calls st |}.

Definition adi_with_call (st : adi_t) (c : adi_call) : adi_t :=
  {| adi_pad := adi_pad st; adi_config := adi_config st; adi_value := adi_value st;
     adi_set_answer := adi_set_answer st; adi_reads := adi_reads st;
     adi_calls := adi_calls st ++ [c] |}.

(** [registry_get_device(d)->pad[i] = v] *)
Definition pad_store (pad : Z → Z → Z) (d i v : Z) : Z → Z → Z :=
  λ d' i', if (d' =? d) && (i' =? i) then v else pad d' i'.

(** The four bytes of an [int32_t] and back, as the union [adi_data_s_t]
    overlays them on the little-endian target. *)
Definition int32_byte (x : Z) (i : Z) : Z := (uint32 x `div` 2 ^ (8 * i)) `mod` 256.

Definition int32_of_bytes (b0 b1 b2 b3 : Z) : Z :=
  int32 (b0 + 2 ^ 8 * b1 + 2 ^ 16 * b2 + 2 ^ 24 * b3).

(** The byte of a [bool], and a byte read as a [bool]: true when it is not
    zero. *)
Definition bool_byte (b : bool) : Z := if b then 1 else 0.
Definition byte_bool (x : Z) : bool := negb (x =? 0).

Definition get_analog_calib (st : adi_t) (port : Z) : Z :=
  int32_of_bytes (adi_pad st port (port * 4)) (adi_pad st port (port * 4 + 1))
    (adi_pad st port (port * 4 + 2)) (adi_pad st port (port * 4 + 3)).

Definition set_analog_calib (st : adi_t) (port : Z) (calib : Z) : adi_t :=
  let pad := pad_store (adi_pad st) port (port * 4) (int32_byte calib 0) in
  let pad := pad_store pad port (port * 4 + 1) (int32_byte calib 1) in
  let pad := pad_store pad port (port * 4 + 2) (int32_byte calib 2) in
  let pad := pad_store pad port (port * 4 + 3) (int32_byte calib 3) in
  adi_with_pad st pad.

Definition get_digital_pressed (st : adi_t) (port : Z) : bool :=
  byte_bool (adi_pad st port (port * 4)).

Definition set_digital_pressed (st : adi_t) (port : Z) (val : bool) : adi_t :=
  adi_with_pad st (pad_store (adi_pad st) port (port * 4) (bool_byte val)).

Definition get_encoder_reversed (st : adi_t) (port : Z) : bool :=
  byte_bool (adi_pad st port (port * 4)).

Definition set_encoder_reversed (st : adi_t) (port : Z) (val : bool) : adi_t :=
  adi_with_pad st (pad_store (adi_pad st) port (port * 4) (bool_byte val)).

(** The macro [transform_adi_port] on a [uint8_t] port: the port it goes
    on with, or [None] where it sets [errno] to [EINVAL] and returns
    [PROS_ERR]. *)
Definition transform_adi_port (port : Z) : option Z :=
  let port :=
    if (97 <=? port) && (port <=? 104) then uint8 (port - 97)
    else if (65 <=? port) && (port <=? 72) then uint8 (port - 65)
    else uint8 (port - 1) in
  if (port >? 7) || (port <? 0) then None else Some port.

(** The four internal port functions.  The two that set something return
    1 once the call to the device is made; where [claim_port] does not
    claim the port they return before it, and no call is made. *)
Definition _adi_port_set_config (st : adi_t) (port : Z) (type : adi_port_config_e_t)
  : Z * adi_t :=
  (* claim_port(INTERNAL_ADI_PORT, E_DEVICE_ADI); *)
  if adi_set_answer st =? 1
  then (1, adi_with_call st (PortConfigSet port type))
  else (PROS_ERR, st).

Definition _adi_port_get_config (st : adi_t) (port : Z) : adi_port_config_e_t :=
  adi_config st port.

Definition _adi_port_set_value (st : adi_t) (port : Z) (value : Z) : Z * adi_t :=
  (* claim_port(INTERNAL_ADI_PORT, E_DEVICE_ADI); *)
  if adi_set_answer st =? 1
  then (1, adi_with_call st (PortValueSet port value))
  else (PROS_ERR, st).

Definition _adi_port_get_value (st : adi_t) (port : Z) : Z * adi_t :=
  (adi_value st (adi_reads st) port, adi_with_reads st (S (adi_reads st))).

(** The conditions under which the [validate_...] macros let a function
    go on. *)
Definition validate_type (st : adi_t) (port : Z) (type : adi_port_config_e_t) : bool :=
  bool_decide (_adi_port_get_config st port = type).

Definition validate_analog (st : adi_t) (port : Z) : bool :=
  let config := _adi_port_get_config st port in
  negb (bool_decide (config ≠ E_ADI_ANALOG_IN)
        && bool_decide (config ≠ E_ADI_LEGACY_POT)
        && bool_decide (config ≠ E_ADI_LEGACY_LINE_SENSOR)
        && bool_decide (config ≠ E_ADI_LEGACY_LIGHT_SENSOR)
        && bool_decide (config ≠ E_ADI_LEGACY_ACCELEROMETER)
        && bool_decide (config ≠ E_ADI_SMART_POT)).

Definition validate_digital_in (st : adi_t) (port : Z) : bool :=
  let config := _adi_port_get_config st port in
  negb (bool_decide (config ≠ E_ADI_DIGITAL_IN)
        && bool_decide (config ≠ E_ADI_LEGACY_BUTTON)
        && bool_decide (config ≠ E_ADI_SMART_BUTTON)).

Definition validate_motor (st : adi_t) (port : Z) : bool :=
  let config := _adi_port_get_config st port in
  negb (bool_decide (config ≠ E_ADI_LEGACY_PWM)
        && bool_decide (config ≠ E_ADI_LEGACY_SERVO)).

(** The macro [validate_twowire]: the port it declares, or how it
    returns. *)
Definition validate_twowire (port_top port_bottom : Z) : adi_ret Z :=
  if Z.abs (port_top - port_bottom) >? 1 then AdiEinval
  else if port_top <? port_bottom then
    (if Z.rem port_top 2 =? 1 then AdiErr else AdiRet port_top)
  else if port_bottom <? port_top then
    (if Z.rem port_bottom 2 =? 1 then AdiErr else AdiRet port_bottom)
  else AdiErr.

(** ** The port functions *)

Definition adi_port_set_config (st : adi_t) (port : Z) (type : adi_port_config_e_t)
  : adi_ret Z * adi_t :=
  match transform_adi_port port with
  | None => (AdiEinval, st)
  | Some port =>
      let '(r, st) := _adi_port_set_config st port type in (AdiRet r, st)
  end.

Definition adi_port_get_config (st : adi_t) (port : Z)
  : adi_ret adi_port_config_e_t * adi_t :=
  match transform_adi_port port with
  | None => (AdiEinval, st)
  | Some port => (AdiRet (_adi_port_get_config st port), st)
  end.

Definition adi_port_set_value (st : adi_t) (port : Z) (value : Z)
  : adi_ret Z * adi_t :=
  match transform_adi_port port with
  | None => (AdiEinval, st)
  | Some port =>
      let '(r, st) := _adi_port_set_value st port value in (AdiRet r, st)
  end.

Definition adi_port_get_value (st : adi_t) (port : Z) : adi_ret Z * adi_t :=
  match transform_adi_port port with
  | None => (AdiEinval, st)
  | Some port =>
      let '(r, st) := _adi_port_get_value st port in (AdiRet r, st)
  end.

(** The loop of [adi_analog_calibrate], with [n] readings still to
    take. *)
Fixpoint adi_analog_calibrate_loop (n : nat) (total : Z) (st : adi_t) (port : Z)
  : Z * adi_t :=
  match n with
  | O => (total, st)
  | S n' =>
      let '(v, st) := _adi_port_get_value st port in
      adi_analog_calibrate_loop n' (uint32 (total + v)) st port
  end.

Definition adi_analog_calibrate (st : adi_t) (port : Z) : adi_ret Z * adi_t :=
  match transform_adi_port port with
  | None => (AdiEinval, st)
  | Some port =>
      if negb (validate_analog st port) then (AdiEinval, st)
      else
        let '(total, st) := adi_analog_calibrate_loop 512 0 st port in
        let st := set_analog_calib st port
                    (int32 (Z.shiftr (uint32 (total + 16)) 5)) in
        (AdiRet (int32 (Z.shiftr (uint32 (total + 256)) 9)), st)
  end.

Definition adi_analog_read (st : adi_t) (port : Z) : adi_ret Z * adi_t :=
  match transform_adi_port port with
  | None => (AdiEinval, st)
  | Some port =>
      if negb (validate_analog st port) then (AdiEinval, st)
      else let '(r, st) := _adi_port_get_value st port in (AdiRet r, st)
  end.

Definition adi_analog_read_calibrated (st : adi_t) (port : Z) : adi_ret Z * adi_t :=
  match transform_adi_port port with
  | None => (AdiEinval, st)
  | Some port =>
      if negb (validate_analog st port) then (AdiEinval, st)
      else
        let '(r, st) := _adi_port_get_value st port in
        (AdiRet (int32 (r - Z.shiftr (get_analog_calib st port) 4)), st)
  end.

Definition adi_analog_read_calibrated_HR (st : adi_t) (port : Z)
  : adi_ret Z * adi_t :=
  match transform_adi_port port with
  | None => (AdiEinval, st)
  | Some port =>
      if negb (validate_analog st port) then (AdiEinval, st)
      else
        let '(r, st) := _adi_port_get_value st port in
        (AdiRet (int32 (int32 (Z.shiftl r 4) - get_analog_calib st port)), st)
  end.

Definition adi_digital_read (st : adi_t) (port : Z) : adi_ret Z * adi_t :=
  match transform_adi_port port with
  | None => (AdiEinval, st)
  | Some port =>
      if negb (validate_digital_in st port) then (AdiEinval, st)
      else let '(r, st) := _adi_port_get_value st port in (AdiRet r, st)
  end.

Definition adi_digital_get_new_press (st : adi_t) (port : Z) : adi_ret Z * adi_t :=
  match transform_adi_port port with
  | None => (AdiEinval, st)
  | Some port =>
      let '(pressed, st) := _adi_port_get_value st port in
      let st := if pressed =? 0 then set_digital_pressed st port false else st in
      if negb (pressed =? 0) && negb (get_digital_pressed st port)
      then (AdiRet 1, set_digital_pressed st port true)
      else (AdiRet 0, st)
  end.

Definition adi_digital_write (st : adi_t) (port : Z) (value : bool)
  : adi_ret Z * adi_t :=
  match transform_adi_port port with
  | None => (AdiEinval, st)
  | Some port =>
      if negb (validate_type st port E_ADI_DIGITAL_OUT) then (AdiErr, st)
      else
        let '(r, st) := _adi_port_set_value st port (bool_byte value) in
        (AdiRet r, st)
  end.

(** [adi_pin_mode] drops the value of the [adi_port_set_config] call it
    makes, but what that call did to [errno] stays: next to how the
    function itself returns, the result tells how the call came back
    ([AdiEinval]: with [errno] set to [EINVAL]), or [None] where no call
    was made. *)
Definition adi_pin_mode (st : adi_t) (port : Z) (mode : adi_pin_mode_t)
  : adi_ret Z * option (adi_ret Z) * adi_t :=
  match mode with
  | INPUT =>
      let '(r, st) := adi_port_set_config st port E_ADI_DIGITAL_IN in
      (AdiRet 1, Some r, st)
  | OUTPUT =>
      let '(r, st) := adi_port_set_config st port E_ADI_DIGITAL_OUT in
      (AdiRet 1, Some r, st)
  | INPUT_ANALOG =>
      let '(r, st) := adi_port_set_config st port E_ADI_ANALOG_IN in
      (AdiRet 1, Some r, st)
  | OUTPUT_ANALOG =>
      let '(r, st) := adi_port_set_config st port E_ADI_ANALOG_OUT in
      (AdiRet 1, Some r, st)
  | MODE_OTHER _ => (AdiEinval, None, st)
  end.

(** [speed] is an [int8_t]: the argument of the call is converted to it,
    and the two comparisons are made on the converted value. *)
Definition adi_motor_set (st : adi_t) (port : Z) (speed : Z) : adi_ret Z * adi_t :=
  let speed := int8 speed in
  match transform_adi_port port with
  | None => (AdiEinval, st)
  | Some port =>
      if negb (validate_motor st port) then (AdiEinval, st)
      else
        let speed :=
          if speed >? ADI_MOTOR_MAX_SPEED then ADI_MOTOR_MAX_SPEED
          else if speed <? ADI_MOTOR_MIN_SPEED then ADI_MOTOR_MIN_SPEED
          else speed in
        let '(r, st) := _adi_port_set_value st port speed in (AdiRet r, st)
  end.

Definition adi_motor_get (st : adi_t) (port : Z) : adi_ret Z * adi_t :=
  match transform_adi_port port with
  | None => (AdiEinval, st)
  | Some port =>
      if negb (validate_motor st port) then (AdiEinval, st)
      else
        let '(r, st) := _adi_port_get_value st port in
        (AdiRet (int32 (r - ADI_MOTOR_MAX_SPEED)), st)
  end.

(** [adi_motor_stop] has no [transform_adi_port]: it goes on with the
    port as it was given. *)
Definition adi_motor_stop (st : adi_t) (port : Z) : adi_ret Z * adi_t :=
  if negb (validate_motor st port) then (AdiEinval, st)
  else let '(r, st) := _adi_port_set_value st port 0 in (AdiRet r, st).

(** ** Two-wire sensors *)

Definition adi_encoder_init (st : adi_t) (port_top port_bottom : Z) (reverse : bool)
  : adi_ret Z * adi_t :=
  match transform_adi_port port_top with
  | None => (AdiEinval, st)
  | Some port_top =>
      match transform_adi_port port_bottom with
      | None => (AdiEinval, st)
      | Some port_bottom =>
          match validate_twowire port_top port_bottom with
          | AdiEinval => (AdiEinval, st)
          | AdiErr => (AdiErr, st)
          | AdiRet port =>
              let st := set_encoder_reversed st port reverse in
              let '(r, st) := _adi_port_set_config st port E_ADI_LEGACY_ENCODER in
              if negb (r =? 0) then (AdiRet port, st) else (AdiErr, st)
          end
      end
  end.

(** [enc] is an [adi_encoder_t], converted to the [uint8_t] port of the
    functions it is handed to. *)
Definition adi_encoder_get (st : adi_t) (enc : Z) : adi_ret Z * adi_t :=
  let port := uint8 enc in
  if negb (validate_type st port E_ADI_LEGACY_ENCODER) then (AdiErr, st)
  else if get_encoder_reversed st port then
    let '(r, st) := _adi_port_get_value st port in (AdiRet (int32 (- r)), st)
  else
    let '(r, st) := _adi_port_get_value st port in (AdiRet r, st).

Definition adi_encoder_reset (st : adi_t) (enc : Z) : adi_ret Z * adi_t :=
  let port := uint8 enc in
  if negb (validate_type st port E_ADI_LEGACY_ENCODER) then (AdiErr, st)
  else let '(r, st) := _adi_port_set_value st port 0 in (AdiRet r, st).

Definition adi_encoder_shutdown (st : adi_t) (enc : Z) : adi_ret Z * adi_t :=
  let port := uint8 enc in
  if negb (validate_type st port E_ADI_LEGACY_ENCODER) then (AdiErr, st)
  else
    let '(r, st) := _adi_port_set_config st port E_ADI_TYPE_UNDEFINED in
    (AdiRet r, st).

Definition adi_ultrasonic_init (st : adi_t) (port_echo port_ping : Z)
  : adi_ret Z * adi_t :=
  match transform_adi_port port_echo with
  | None => (AdiEinval, st)
  | Some port_echo =>
      match transform_adi_port port_ping with
      | None => (AdiEinval, st)
      | Some port_ping =>
          match validate_twowire port_echo port_ping with
          | AdiEinval => (AdiEinval, st)
          | AdiErr => (AdiErr, st)
          | AdiRet port =>
              if negb (port =? port_echo) then (AdiErr, st)
              else
                let '(r, st) :=
                  _adi_port_set_config st port E_ADI_LEGACY_ULTRASONIC in
                if negb (r =? 0) then (AdiRet port, st) else (AdiErr, st)
          end
      end
  end.

Definition adi_ultrasonic_get (st : adi_t) (ult : Z) : adi_ret Z * adi_t :=
  let port := uint8 ult in
  if negb (validate_type st port E_ADI_LEGACY_ULTRASONIC) then (AdiErr, st)
  else let '(r, st) := _adi_port_get_value st port in (AdiRet r, st).

Definition adi_ultrasonic_shutdown (st : adi_t) (ult : Z) : adi_ret Z * adi_t :=
  let port := uint8 ult in
  if negb (validate_type st port E_ADI_LEGACY_ULTRASONIC) then (AdiErr, st)
  else
    let '(r, st) := _adi_port_set_config st port E_ADI_TYPE_UNDEFINED in
    (AdiRet r, st).

(** ** What the ADI properties speak of *)

(** [port] is one of the names of the three-wire port with index [p]: a
    number from 1 to 8, or a letter from 'a' to 'h' or from 'A' to 'H'. *)
Definition adi_port_name (port p : Z) : Prop :=
  (1 ≤ port ≤ 8 ∧ p = port - 1)
  ∨ (97 ≤ port ≤ 104 ∧ p = port - 97)
  ∨ (65 ≤ port ≤ 72 ∧ p = port - 65).

(** The configuration that [adi_pin_mode] asks for in each of its modes. *)
Definition pin_mode_config (mode : adi_pin_mode_t) : option adi_port_config_e_t :=
  match mode with
  | INPUT => Some E_ADI_DIGITAL_IN
  | OUTPUT => Some E_ADI_DIGITAL_OUT
  | INPUT_ANALOG => Some E_ADI_ANALOG_IN
  | OUTPUT_ANALOG => Some E_ADI_ANALOG_OUT
  | MODE_OTHER _ => None
  end.

(** Two port indices that are next to each other, the lower one even: the
    pairs (0,1), (2,3), (4,5) and (6,7), in either order. *)
Definition twowire_pair (a b : Z) : Prop :=
  Z.abs (a - b) = 1 ∧ Z.even (Z.min a b) = true.

(** The next [n] values the device layer reports for a port. *)
Definition adi_readings (st : adi_t) (port : Z) (n : nat) : list Z :=
  (λ k, adi_value st (adi_reads st + k)%nat port) <$> seq 0 n.

Definition sumZ (l : list Z) : Z := foldr Z.add 0 l.

(** [n] calls of [adi_digital_get_new_press] in a row: what they return,
    and the state after the last. *)
Fixpoint adi_poll_new_press (n : nat) (st : adi_t) (port : Z)
  : list (adi_ret Z) * adi_t :=
  match n with
  | O => ([], st)
  | S n' =>
      let '(r, st) := adi_digital_get_new_press st port in
      let '(rs, st) := adi_poll_new_press n' st port in
      (r :: rs, st)
  end.

(** The new presses in a sequence of button readings: 1 at a reading that
    is not zero and follows a zero reading ([was] tells whether the button
    was seen pressed before the first), 0 elsewhere. *)
Fixpoint new_presses (was : bool) (readings : list Z) : list Z :=
  match readings with
  | [] => []
  | r :: readings' =>
      (if negb (r =? 0) && negb was then 1 else 0)
      :: new_presses (negb (r =? 0)) readings'
  end.

(** A device layer to run the functions with: every port configured as
    [config], the k-th reading of every port taken from [values] (zero
    after its end), the internal port claimed at every set call, a zeroed
    scratch area. *)
Definition adi_bench (config : adi_port_config_e_t) (values : list Z) : adi_t :=
  {| adi_pad := λ _ _, 0; adi_config := λ _, config;
     adi_value := λ k _, default 0 (values !! k);
     adi_set_answer := 1; adi_reads := 0; adi_calls := [] |}.

(** A device layer that reports the same value [v] at every reading. *)
Definition adi_steady (config : adi_port_config_e_t) (v : Z) : adi_t :=
  {| adi_pad := λ _ _, 0; adi_config := λ _, config;
     adi_value := λ _ _, v;
     adi_set_answer := 1; adi_reads := 0; adi_calls := [] |}.

(** ** Basic facts *)

Lemma list_contains_guaranteed (id : Z) :
  list_contains guaranteed_delivery_streams guaranteed_delivery_streams_size id = true
  ↔ id ∈ guaranteed_delivery_streams.
Proof.
  unfold list_contains, guaranteed_delivery_streams_size.
  rewrite firstn_all, existsb_exists. split.
  - intros (x & Hin & Heq). apply Z.eqb_eq in Heq. subst x.
    by apply list_elem_of_In.
  - intros Hin. exists id. split; [by apply list_elem_of_In | apply Z.eqb_refl].
Qed.

Lemma guaranteed_is_stderr (id : Z) :
  id ∈ guaranteed_delivery_streams ↔ id = STDERR_STREAM_ID.
Proof. unfold guaranteed_delivery_streams. apply list_elem_of_singleton. Qed.

Lemma set_contains_true (s : gset Z) (id : Z) :
  set_contains s id = true ↔ id ∈ s.
Proof. unfold set_contains. apply bool_decide_eq_true. Qed.

Lemma set_contains_false (s : gset Z) (id : Z) :
  set_contains s id = false ↔ id ∉ s.
Proof. unfold set_contains. apply bool_decide_eq_false. Qed.

Lemma list_contains_not_guaranteed (id : Z) :
  list_contains guaranteed_delivery_streams guaranteed_delivery_streams_size id = false
  ↔ id ∉ guaranteed_delivery_streams.
Proof.
  rewrite <- list_contains_guaranteed. by destruct (list_contains _ _ _).
Qed.

(** The filter of [ser_write_r] is the negation of [stream_enabled]. *)
Lemma filter_false_iff (st : state) (id : Z) :
  negb (list_contains guaranteed_delivery_streams guaranteed_delivery_streams_size id)
  && negb (set_contains (enabled_streams_set st) id) = false
  ↔ stream_enabled st id.
Proof.
  unfold stream_enabled.
  rewrite <- list_contains_guaranteed, <- set_contains_true.
  destruct (list_contains _ _ _), (set_contains _ _); simpl;
    split; try done; try (intros [?|?]; done); auto.
Qed.

Lemma filter_true_iff (st : state) (id : Z) :
  negb (list_contains guaranteed_delivery_streams guaranteed_delivery_streams_size id)
  && negb (set_contains (enabled_streams_set st) id) = true
  ↔ ¬ stream_enabled st id.
Proof.
  rewrite <- filter_false_iff.
  by destruct (negb _ && negb _); split; try done; intros H.
Qed.

Lemma ser_write_r_enabled (st : state) (arg : Z) (buf : list Z) :
  stream_enabled st (stream_id (files st arg)) →
  ser_write_r st arg buf = ser_write_r_send st (files st arg) buf.
Proof.
  intros He. apply filter_false_iff in He. unfold ser_write_r. by rewrite He.
Qed.

(** Pushing a buffer that fits appends all of it, in order. *)
Lemma ser_output_write_room (q : queue_t) (buffer : list Z) (noblock : bool) :
  has_room q buffer →
  ser_output_write q buffer noblock = (Some true, enqueue q buffer).
Proof.
  unfold has_room, enqueue. revert q.
  induction buffer as [|b buffer IH]; intros q Hroom; simpl in *.
  - rewrite app_nil_r. by destruct q.
  - unfold queue_append.
    destruct (Nat.ltb_spec (length (q_items q)) (q_capacity q)) as [_|Hge]; [|lia].
    rewrite IH; simpl.
    + by rewrite <- app_assoc.
    + rewrite length_app. simpl. lia.
Qed.

(** Pushing never removes or reorders what the queue held, and what it adds
    is a prefix of the buffer; it reports success exactly when it pushed
    everything. *)
Lemma ser_output_write_prefix (q : queue_t) (buffer : list Z) (noblock : bool) :
  ∃ k : nat,
    (k ≤ length buffer)%nat ∧
    (ser_output_write q buffer noblock).2 = enqueue q (take k buffer) ∧
    ((ser_output_write q buffer noblock).1 = Some true → k = length buffer).
Proof.
  revert q. induction buffer as [|b buffer IH]; intros q; simpl.
  - exists 0%nat. unfold enqueue. simpl. rewrite app_nil_r. by destruct q.
  - unfold queue_append.
    destruct (length (q_items q) <? q_capacity q)%nat.
    + destruct (IH {| q_items := q_items q ++ [b]; q_capacity := q_capacity q |})
        as (k & Hk & Hq & Hok).
      exists (S k). split; [lia|]. split.
      * rewrite Hq. unfold enqueue. simpl. by rewrite <- app_assoc.
      * intros H. f_equal. by apply Hok.
    + exists 0%nat. split; [simpl; lia|].
      assert (Hq : enqueue q (take 0 (b :: buffer)) = q).
      { unfold enqueue. simpl. rewrite app_nil_r. by destruct q. }
      rewrite Hq. by destruct (_ =? TIMEOUT_MAX).
Qed.

(** What [ser_write_r_send] logs is the one [mutex_take] of the write
    lock, with the timeout [write_lock_timeout], and the matching
    [mutex_give] when the lock was taken and the call returns. *)
Lemma ser_write_r_send_trace (st : state) (file : ser_file_s_t) (buf : list Z) :
  let t := write_lock_timeout st file in
  let ok := mutex_take_ok write_mtx t in
  trace (ser_write_r_send st file buf).2
  = trace st ++ MutexTake write_mtx t ok
      :: match (ser_write_r_send st file buf).1 with
         | Some _ => if ok then [MutexGive write_mtx] else []
         | None => []
         end.
Proof.
  unfold write_lock_timeout, framing_enabled, ser_write_r_send, mutex_take. simpl.
  destruct (Z.land (ser_driver_runtime_config st) E_COBS_ENABLED =? 0); simpl.
  - destruct (mutex_take_ok write_mtx TIMEOUT_MAX); simpl; [|done].
    destruct (ser_output_write _ _ _) as [[[]|] q]; simpl;
      by rewrite <- ?app_assoc.
  - destruct (mutex_take_ok write_mtx _); simpl; [|done].
    destruct (ser_output_write _ _ _) as [[[]|] q]; simpl;
      by rewrite <- ?app_assoc.
Qed.

(** A refused lock ends [ser_write_r_send] with 0 and [EACCES], the queue
    as it was. *)
Lemma ser_write_r_send_no_lock (st : state) (file : ser_file_s_t) (buf : list Z) :
  mutex_take_ok write_mtx (write_lock_timeout st file) = false →
  ∃ st', ser_write_r_send st file buf = (Some 0, st')
         ∧ _errno st' = Some EACCES
         ∧ write_queue st' = write_queue st.
Proof.
  unfold write_lock_timeout, framing_enabled, ser_write_r_send, mutex_take. simpl.
  destruct (Z.land (ser_driver_runtime_config st) E_COBS_ENABLED =? 0); simpl;
    intros ->; simpl; eauto.
Qed.

(** With framing off, [ser_write_r_send] pushes the payload itself. *)
Lemma ser_write_r_send_raw (st : state) (file : ser_file_s_t) (buf : list Z) :
  framing_enabled st = false →
  ser_write_r_send st file buf =
    if mutex_take_ok write_mtx TIMEOUT_MAX then
      let st1 := log (set_runtime_config st 0)
                   (MutexTake write_mtx TIMEOUT_MAX true) in
      let r := ser_output_write (write_queue st) buf (noblk_write file) in
      let st2 := mutex_give (set_write_queue st1 r.2) write_mtx in
      match r.1 with
      | None => (None, set_write_queue st1 r.2)
      | Some true => (Some (Z.of_nat (length buf)), st2)
      | Some false => (Some 0, set_errno st2 EIO)
      end
    else
      (Some 0, set_errno (log (set_runtime_config st 0)
                            (MutexTake write_mtx TIMEOUT_MAX false)) EACCES).
Proof.
  unfold framing_enabled, ser_write_r_send, mutex_take. intros Hoff.
  apply negb_false_iff in Hoff. simpl. rewrite Hoff. simpl.
  apply Z.eqb_eq in Hoff. rewrite Hoff.
  destruct (mutex_take_ok write_mtx TIMEOUT_MAX); simpl; [|done].
  by destruct (ser_output_write _ _ _) as [[[]|] q].
Qed.

(** The removal loop of [ser_output_flush]: [k] calls of [queue_recv]
    drop the first [k] bytes. *)
Lemma queue_recv_iter (k : nat) (q : queue_t) :
  Nat.iter k queue_recv q
  = {| q_items := drop k (q_items q); q_capacity := q_capacity q |}.
Proof.
  induction k as [|k IH]; simpl.
  - by destruct q.
  - rewrite IH. unfold queue_recv. simpl. f_equal.
    generalize (q_items q). clear. intros l. revert k.
    induction l as [|x l IHl]; intros [|k]; simpl; done.
Qed.

(** A refused read lock ends [ser_read_r] at once. *)
Lemma ser_read_r_no_lock (st : state) (len : nat) :
  mutex_take_ok read_mtx TIMEOUT_MAX = false →
  ser_read_r st len
  = Some (0, [], set_errno (log st (MutexTake read_mtx TIMEOUT_MAX false)) EACCES).
Proof. unfold ser_read_r, mutex_take. by intros ->. Qed.

(** *** Paths *)

(** The length check of [ser_open_r] rejects a path exactly when it has
    more than four characters. *)
Lemma ser_open_scan_too_long (path : string) :
  Ascii.eqb (char_at path (ser_open_scan path 0 4)) NUL = false
  ↔ (4 < strlen path)%nat.
Proof.
  unfold strlen.
  destruct path as [|c0 [|c1 [|c2 [|c3 [|c4 path]]]]]; cbn;
    repeat match goal with
      | |- context [Ascii.eqb ?c NUL] =>
          is_var c; destruct (Ascii.eqb c NUL) eqn:?; cbn
      end;
    split; intros; try done; try lia.
Qed.

Lemma ser_open_r_stripped (path : string) :
  Ascii.eqb (char_at path 0) NUL = false →
  ser_open_r path =
    let path := strip_slash path in
    if (4 <? strlen path)%nat then OpenError ENAMETOOLONG
    else if strcmp_eq path "sout" then OpenFd STDOUT_FILENO
    else if strcmp_eq path "sin" then OpenFd STDIN_FILENO
    else if strcmp_eq path "serr" then OpenFd STDERR_FILENO
    else OpenEntry (c_str path).
Proof.
  intros Hne. unfold ser_open_r. rewrite Hne. fold (strip_slash path). cbv zeta.
  destruct (Nat.ltb_spec 4 (strlen (strip_slash path))) as [Hlt|Hge].
  - apply ser_open_scan_too_long in Hlt. by rewrite Hlt.
  - destruct (Ascii.eqb (char_at _ (ser_open_scan _ 0 4)) NUL) eqn:Hs; [done|].
    apply ser_open_scan_too_long in Hs. lia.
Qed.

(** A path whose first character is the terminator is empty as a C
    string, also after [strip_slash]. *)
Lemma strip_slash_empty (path : string) :
  Ascii.eqb (char_at path 0) NUL = true → c_str (strip_slash path) = EmptyString.
Proof.
  unfold strip_slash, char_at. destruct path as [|c path]; simpl; [done|].
  intros Hc. apply Ascii.eqb_eq in Hc. by subst c.
Qed.

(** *** The read loop *)

Lemma ser_read_loop_eq (len read : nat) (stores : list (nat * Z)) (inp : list Z) :
  ser_read_loop len read stores inp =
    if (read <? len)%nat then
      match inp with
      | [] => None
      | c :: inp' =>
          if c =? -1 then
            if negb (read =? 0)%nat then Some (read, stores, inp')
            else ser_read_loop len read stores inp'
          else
            let stores' := stores ++ [(read, c `mod` 256)] in
            if c =? 10 then Some (S read, stores', inp')
            else ser_read_loop len (S read) stores' inp'
      end
    else Some (read, stores, inp).
Proof. by destruct inp. Qed.

Lemma stores_from_app (off : nat) (a b : list Z) :
  stores_from off (a ++ b) = stores_from off a ++ stores_from (off + length a) b.
Proof.
  revert off. induction a as [|x a IH]; intros off; simpl.
  - by rewrite Nat.add_0_r.
  - rewrite IH. do 3 f_equal. lia.
Qed.

(** No-data signals before the first byte are polled through. *)
Lemma ser_read_loop_skip (len k : nat) (stores : list (nat * Z)) (inp : list Z) :
  (0 < len)%nat →
  ser_read_loop len 0 stores (replicate k (-1) ++ inp)
  = ser_read_loop len 0 stores inp.
Proof.
  intros Hlen. induction k as [|k IH]; [done|].
  simpl replicate. simpl app. rewrite ser_read_loop_eq.
  destruct (Nat.ltb_spec 0 len); [|lia]. by simpl.
Qed.

(** With nothing but no-data signals the loop never leaves. *)
Lemma ser_read_loop_polling (len k : nat) (stores : list (nat * Z)) :
  (0 < len)%nat →
  ser_read_loop len 0 stores (replicate k (-1)) = None.
Proof.
  intros Hlen. rewrite <- (app_nil_r (replicate k (-1))).
  rewrite ser_read_loop_skip by done. rewrite ser_read_loop_eq.
  by destruct (Nat.ltb_spec 0 len); [|lia].
Qed.

(** Bytes that are no newline are stored one after the other while the
    buffer has room. *)
Lemma ser_read_loop_bytes (len : nat) (data : list Z) :
  ∀ (read : nat) (stores : list (nat * Z)) (rest : list Z),
    Forall (λ b, 0 ≤ b < 256 ∧ b ≠ 10) data →
    (read + length data ≤ len)%nat →
    ser_read_loop len read stores (data ++ rest)
    = ser_read_loop len (read + length data) (stores ++ stores_from read data) rest.
Proof.
  induction data as [|b data IH]; intros read stores rest Hdata Hlen; simpl in *.
  - by rewrite Nat.add_0_r, app_nil_r.
  - apply Forall_cons in Hdata as [[Hb Hnl] Hdata].
    destruct (Nat.ltb_spec read len); [|lia].
    destruct (Z.eqb_spec b (-1)); [lia|].
    destruct (Z.eqb_spec b 10); [done|]. simpl.
    rewrite IH by (done || lia).
    rewrite <- app_assoc. simpl. f_equal. lia.
Qed.

(** The offsets of the stores of the loop are consecutive, and the count
    returned is the offset after the last of them, at most [len]. *)
Lemma ser_read_loop_offsets (len : nat) (inp : list Z) :
  ∀ (read : nat) (stores : list (nat * Z)) r stores' inp',
    (read ≤ len)%nat →
    ser_read_loop len read stores inp = Some (r, stores', inp') →
    (read ≤ r ≤ len)%nat ∧ stores'.*1 = stores.*1 ++ seq read (r - read).
Proof.
  induction inp as [|c inp IH]; intros read stores r stores' inp' Hle;
    rewrite ser_read_loop_eq; destruct (Nat.ltb_spec read len) as [Hlt|Hge];
    try done.
  - intros [= <- <- <-]. rewrite Nat.sub_diag. simpl. by rewrite app_nil_r.
  - destruct (c =? -1).
    + destruct (negb (read =? 0)%nat).
      * intros [= <- <- <-]. rewrite Nat.sub_diag. simpl.
        rewrite app_nil_r. split; [lia|done].
      * by apply IH.
    + cbv zeta. destruct (c =? 10).
      * intros [= <- <- <-]. rewrite fmap_app. simpl.
        replace (S read - read)%nat with 1%nat by lia. split; [lia|done].
      * intros Hloop. apply IH in Hloop as [Hr Hst]; [|lia].
        split; [lia|]. rewrite Hst, fmap_app, <- app_assoc. simpl.
        replace (r - read)%nat with (S (r - S read)) by lia. done.
  - intros [= <- <- <-]. rewrite Nat.sub_diag. simpl.
    rewrite app_nil_r. split; [lia|done].
Qed.

(** Values of any width that are neither the no-data signal nor a
    newline are stored the same way, each cut to its low byte. *)
Lemma ser_read_loop_values (len : nat) (data : list Z) :
  ∀ (read : nat) (stores : list (nat * Z)) (rest : list Z),
    Forall (λ b, b ≠ -1 ∧ b ≠ 10) data →
    (read + length data ≤ len)%nat →
    ser_read_loop len read stores (data ++ rest)
    = ser_read_loop len (read + length data) (stores ++ stores_from read data) rest.
Proof.
  induction data as [|b data IH]; intros read stores rest Hdata Hlen; simpl in *.
  - by rewrite Nat.add_0_r, app_nil_r.
  - apply Forall_cons in Hdata as [[Hb Hnl] Hdata].
    destruct (Nat.ltb_spec read len); [|lia].
    destruct (Z.eqb_spec b (-1)); [done|].
    destruct (Z.eqb_spec b 10); [done|]. simpl.
    rewrite IH by (done || lia).
    rewrite <- app_assoc. simpl. f_equal. lia.
Qed.

(** The loop leaves after the value that is a newline, that fills the
    [len] bytes, or that a no-data signal follows. *)
Lemma ser_read_loop_stops
  (len k : nat) (body : list Z) (c : Z) (rest left : list Z) :
  Forall (λ b, b ≠ -1 ∧ b ≠ 10) body →
  c ≠ -1 →
  (S (length body) ≤ len)%nat →
  read_stop len body c rest left →
  ser_read_loop len 0 [] (replicate k (-1) ++ body ++ c :: rest)
  = Some (S (length body), stores_from 0 (body ++ [c]), left).
Proof.
  intros Hbody Hc Hfit Hstop.
  rewrite ser_read_loop_skip by lia.
  rewrite (ser_read_loop_values len body 0 [] (c :: rest)) by (done || (simpl; lia)).
  simpl.
  rewrite ser_read_loop_eq.
  destruct (Nat.ltb_spec (length body) len); [|lia].
  destruct (Z.eqb_spec c (-1)); [done|]. cbv zeta.
  rewrite stores_from_app. simpl.
  destruct (Z.eqb_spec c 10) as [Hnl|Hnl].
  - by destruct Hstop as [_|_|rest' Hne _ _].
  - destruct Hstop as [?|Hfull|rest' _ Hlt ->]; [done| |].
    + rewrite ser_read_loop_eq.
      by destruct (Nat.ltb_spec (S (length body)) len); [lia|].
    + rewrite ser_read_loop_eq.
      by destruct (Nat.ltb_spec (S (length body)) len); [|lia].
Qed.

(** The stores of a call that returns with the read lock taken: at the
    offsets 0 to [read], the last of them the zero. *)
Lemma ser_read_r_stores
  (st : state) (len : nat) (ret : Z) (stores : list (nat * Z)) (st' : state) :
  mutex_take_ok read_mtx TIMEOUT_MAX = true →
  ser_read_r st len = Some (ret, stores, st') →
  ∃ read : nat,
    ret = Z.of_nat read
    ∧ (read ≤ len)%nat
    ∧ last stores = Some (read, 0)
    ∧ stores.*1 = seq 0 (read + 1).
Proof.
  intros Hok. unfold ser_read_r, mutex_take. rewrite Hok. simpl.
  destruct (ser_read_loop len 0 [] (inp_buffer st)) as [[[read acc] inp']|] eqn:Hloop;
    [|done].
  intros [= <- <- <-].
  apply ser_read_loop_offsets in Hloop as [Hread Hoff]; [|lia].
  simpl in Hoff. rewrite Nat.sub_0_r in Hoff.
  exists read. split; [done|]. split; [lia|]. split; [apply last_snoc|].
  rewrite fmap_app, Hoff, Nat.add_1_r, seq_S. done.
Qed.

(** *** Stores into the caller's buffer *)

Lemma store_all_app (mem : list Z) (a b : list (nat * Z)) :
  store_all mem (a ++ b) = store_all mem a ≫= λ mem', store_all mem' b.
Proof.
  revert mem. induction a as [|s a IH]; intros mem; simpl; [done|].
  destruct (store mem s); simpl; [apply IH|done].
Qed.

(** A sequence of stores stays in bounds exactly when each offset is
    inside the buffer. *)
Lemma store_all_in_bounds (stores : list (nat * Z)) :
  ∀ mem, is_Some (store_all mem stores)
         ↔ Forall (λ o, o < length mem)%nat stores.*1.
Proof.
  induction stores as [|[o v] stores IH]; intros mem; simpl.
  - split; [by constructor|by eexists].
  - unfold store. simpl. rewrite Forall_cons.
    destruct (Nat.ltb_spec o (length mem)) as [Hlt|Hge].
    + rewrite IH, length_insert. split; [by intros ?; split|by intros [_ ?]].
    + split; [by intros [? ?]|intros [? _]; lia].
Qed.

(** Stored over a region of the same length, bytes in range replace that
    region and leave the rest of the buffer alone. *)
Lemma store_all_stores_from (data : list Z) :
  ∀ pre mid post,
    Forall (λ b, 0 ≤ b < 256) data →
    length mid = length data →
    store_all (pre ++ mid ++ post) (stores_from (length pre) data)
    = Some (pre ++ data ++ post).
Proof.
  induction data as [|b data IH]; intros pre mid post Hdata Hlen;
    destruct mid as [|m mid]; try done; simpl in *.
  apply Forall_cons in Hdata as [Hb Hdata].
  unfold store. simpl.
  destruct (Nat.ltb_spec (length pre) (length (pre ++ m :: mid ++ post))) as [_|Hge].
  - replace (length pre) with (length pre + 0)%nat at 1 by lia.
    rewrite insert_app_r. simpl. rewrite Z.mod_small by done.
    specialize (IH (pre ++ [b]) mid post Hdata).
    rewrite length_app in IH. simpl in IH.
    rewrite Nat.add_1_r, <- !app_assoc in IH. simpl in IH.
    apply IH. lia.
  - rewrite length_app in Hge. simpl in Hge. lia.
Qed.

(** The flag tests of the driver are tests of bit 0. *)
Lemma land_1_testbit (x : Z) : negb (Z.land x 1 =? 0) = Z.testbit x 0.
Proof.
  change 1 with (Z.ones 1). rewrite Z.land_ones by lia.
  change (2 ^ 1) with 2. rewrite <- Z.bit0_mod.
  by destruct (Z.testbit x 0).
Qed.

(** ** Properties of the driver *)

(** C1: a write on a handle whose tag is neither a guaranteed-delivery
    tag nor in the registry of enabled streams returns the whole payload
    length, leaves [_errno] alone and enqueues nothing; indeed it changes
    nothing at all. *)
Theorem ser_write_r_filtered (st : state) (arg : Z) (buf : list Z) :
  stream_id (files st arg) ∉ guaranteed_delivery_streams →
  stream_id (files st arg) ∉ enabled_streams_set st →
  (ser_write_r st arg buf).1 = Some (Z.of_nat (length buf))
  ∧ _errno (ser_write_r st arg buf).2 = _errno st
  ∧ q_items (write_queue (ser_write_r st arg buf).2) = q_items (write_queue st)
  ∧ (ser_write_r st arg buf).2 = st.
Proof.
  intros Hg He.
  assert (Hf : ¬ stream_enabled st (stream_id (files st arg)))
    by (intros [?|?]; done).
  apply filter_true_iff in Hf. unfold ser_write_r. by rewrite Hf.
Qed.

(** C2: whatever the registry holds, a write on a handle with the
    standard-error tag is not filtered: it goes on to the part below the
    filter and asks for the write lock.  And [serctl] with
    [SERCTL_ACTIVATE] or [SERCTL_DEACTIVATE] and a guaranteed-delivery tag
    returns 0 and changes nothing, the registry included. *)
Theorem stderr_never_filtered
  (st : state) (arg : Z) (buf : list Z) (ctl_arg tag : Z) :
  stream_id (files st arg) = STDERR_STREAM_ID →
  tag ∈ guaranteed_delivery_streams →
  ser_write_r st arg buf = ser_write_r_send st (files st arg) buf
  ∧ (∃ t rest, trace (ser_write_r st arg buf).2
               = trace st ++ MutexTake write_mtx t (mutex_take_ok write_mtx t) :: rest)
  ∧ serctl st ctl_arg SERCTL_ACTIVATE tag = (0, st)
  ∧ serctl st ctl_arg SERCTL_DEACTIVATE tag = (0, st)
  ∧ enabled_streams_set (serctl st ctl_arg SERCTL_ACTIVATE tag).2 = enabled_streams_set st
  ∧ enabled_streams_set (serctl st ctl_arg SERCTL_DEACTIVATE tag).2 = enabled_streams_set st.
Proof.
  intros Hid Htag.
  assert (Hen : stream_enabled st (stream_id (files st arg))).
  { left. by apply guaranteed_is_stderr. }
  assert (Hw := ser_write_r_enabled st arg buf Hen).
  apply list_contains_guaranteed in Htag.
  split; [done|]. split.
  - rewrite Hw, ser_write_r_send_trace. eauto.
  - unfold serctl. by rewrite Htag.
Qed.

(** C4: a write that passes the filter asks for the write lock once, with
    the indefinite timeout when framing is disabled, whatever the handle's
    flag is, and, when framing is enabled, with timeout 0 if the handle's
    non-blocking flag is set and the indefinite timeout otherwise.  Framing
    is bit 0 ([E_COBS_ENABLED]) of the configuration word and the
    non-blocking flag is bit 0 ([E_NOBLK_WRITE]) of the handle's flag
    word.  The lock is given back when it was taken and the call
    returns. *)
Theorem ser_write_r_lock_timeout (st : state) (arg : Z) (buf : list Z) :
  stream_enabled st (stream_id (files st arg)) →
  ∃ t : Z,
    (let ok := mutex_take_ok write_mtx t in
     trace (ser_write_r st arg buf).2
     = trace st ++ MutexTake write_mtx t ok
         :: match (ser_write_r st arg buf).1 with
            | Some _ => if ok then [MutexGive write_mtx] else []
            | None => []
            end)
    ∧ (Z.testbit (ser_driver_runtime_config st) 0 = false → t = TIMEOUT_MAX)
    ∧ (Z.testbit (ser_driver_runtime_config st) 0 = true →
       Z.testbit (flags (files st arg)) 0 = true → t = 0)
    ∧ (Z.testbit (ser_driver_runtime_config st) 0 = true →
       Z.testbit (flags (files st arg)) 0 = false → t = TIMEOUT_MAX).
Proof.
  intros Hen. exists (write_lock_timeout st (files st arg)).
  split.
  - rewrite (ser_write_r_enabled _ _ _ Hen). apply ser_write_r_send_trace.
  - unfold write_lock_timeout, framing_enabled, noblk_write, E_COBS_ENABLED,
      E_NOBLK_WRITE.
    rewrite !land_1_testbit.
    repeat split; intros; by repeat match goal with
      | H : _ = _ |- _ => rewrite H end.
Qed.

(** C9: with framing disabled and the handle's stream enabled, a write
    that gets the lock and finds room in the queue returns the payload
    length and leaves in the queue what was there followed by the payload
    bytes, in order, and nothing else: no tag, no delimiter.  And a write
    that returns and sets no error did just that. *)
Theorem ser_write_r_raw_payload (st : state) (arg : Z) (buf : list Z) :
  framing_enabled st = false →
  stream_enabled st (stream_id (files st arg)) →
  (mutex_take_ok write_mtx TIMEOUT_MAX = true →
   has_room (write_queue st) buf →
   (ser_write_r st arg buf).1 = Some (Z.of_nat (length buf))
   ∧ q_items (write_queue (ser_write_r st arg buf).2)
     = q_items (write_queue st) ++ buf
   ∧ _errno (ser_write_r st arg buf).2 = _errno st)
  ∧ (_errno st = None →
     is_Some (ser_write_r st arg buf).1 →
     _errno (ser_write_r st arg buf).2 = None →
     (ser_write_r st arg buf).1 = Some (Z.of_nat (length buf))
     ∧ q_items (write_queue (ser_write_r st arg buf).2)
       = q_items (write_queue st) ++ buf).
Proof.
  intros Hoff Hen.
  rewrite (ser_write_r_enabled _ _ _ Hen), (ser_write_r_send_raw _ _ _ Hoff).
  split.
  - intros -> Hroom. simpl.
    rewrite (ser_output_write_room _ _ (noblk_write (files st arg)) Hroom).
    by simpl.
  - intros Hnone.
    destruct (mutex_take_ok write_mtx TIMEOUT_MAX); simpl; [|done].
    destruct (ser_output_write_prefix (write_queue st) buf (noblk_write (files st arg)))
      as (k & Hk & Hq & Hok).
    destruct (ser_output_write _ _ _) as [[[]|] q]; simpl in *;
      [|done|by intros [? ?]].
    intros _ _. split; [done|]. subst q. simpl.
    by rewrite (Hok eq_refl), firstn_all.
Qed.

(** C5: with [n > 0] bytes waiting and a transport that reports room for
    them, a bulk write that accepts [k < n] bytes makes [ser_output_flush]
    drop exactly the first [k] bytes, the other [n - k] staying in their
    order; a bulk write that accepts all [n] leaves the queue empty.
    Nothing but the queue changes. *)
Theorem ser_output_flush_removes_accepted (st : state) (k : Z) :
  let n := queue_get_waiting (write_queue st) in
  let st' := ser_output_flush st in
  0 < n →
  n ≤ vexSerialWriteFree →
  vexSerialWriteBuffer n = k →
  0 ≤ k ≤ n →
  (k < n →
   q_items (write_queue st') = drop (Z.to_nat k) (q_items (write_queue st))
   ∧ queue_get_waiting (write_queue st') = n - k
   ∧ take (Z.to_nat k) (q_items (write_queue st)) ++ q_items (write_queue st')
     = q_items (write_queue st))
  ∧ (k = n → q_items (write_queue st') = [])
  ∧ st' = set_write_queue st (write_queue st').
Proof.
  intros n st' Hn Hfree Hret Hk. subst st'. unfold ser_output_flush.
  fold n. rewrite Hret.
  destruct (Z.eqb_spec n 0) as [|_]; [lia|].
  destruct (Z.leb_spec n vexSerialWriteFree) as [_|]; [|lia]. simpl.
  destruct (Z.eqb_spec k n) as [Heq|Hne]; simpl.
  - split; [lia|]. by split.
  - rewrite queue_recv_iter. simpl. split; [|by split; [lia|]].
    intros _. split; [done|]. split.
    + unfold queue_get_waiting. simpl. rewrite length_drop.
      unfold n, queue_get_waiting in *. lia.
    + apply take_drop.
Qed.

(** C6: a read whose lock is not obtained returns 0 with [EACCES] and
    stores nothing; a write that passed the filter and whose lock is not
    obtained within its timeout returns 0 with [EACCES] and leaves the
    queue as it was. *)
Theorem lock_timeout_is_eacces (st : state) (arg : Z) (buf : list Z) (len : nat) :
  (mutex_take_ok read_mtx TIMEOUT_MAX = false →
   ∃ st', ser_read_r st len = Some (0, [], st')
          ∧ _errno st' = Some EACCES
          ∧ inp_buffer st' = inp_buffer st)
  ∧ (stream_enabled st (stream_id (files st arg)) →
     mutex_take_ok write_mtx (write_lock_timeout st (files st arg)) = false →
     ∃ st', ser_write_r st arg buf = (Some 0, st')
            ∧ _errno st' = Some EACCES
            ∧ write_queue st' = write_queue st).
Proof.
  split.
  - intros Hno. rewrite (ser_read_r_no_lock _ _ Hno). eauto.
  - intros Hen Hno. rewrite (ser_write_r_enabled _ _ _ Hen).
    by apply ser_write_r_send_no_lock.
Qed.

(** C3, what the code does: [serctl] with [SERCTL_BLKWRITE] or
    [SERCTL_NOBLKWRITE] returns 0 but changes only its local copy of the
    handle record, so the state, and with it the record, is as before.  On
    a freshly started system, after [SERCTL_NOBLKWRITE] on the
    standard-output record (the second of [RESERVED_SER_FILES]) the
    record's flag still reads as blocking, and a framed write on it still
    asks for the lock with the indefinite timeout. *)
Theorem serctl_noblkwrite_lost :
  (∀ st arg parameter,
     serctl st arg SERCTL_NOBLKWRITE parameter = (0, st)
     ∧ serctl st arg SERCTL_BLKWRITE parameter = (0, st))
  ∧ (let st := boot (reserved_files_at 0x1000) [] in
     let arg := 0x1008 in
     let st1 := (serctl st arg SERCTL_NOBLKWRITE 0).2 in
     files st arg = {| stream_id := STDOUT_STREAM_ID; flags := 0 |}
     ∧ framing_enabled st1 = true
     ∧ noblk_write (files st1 arg) = false
     ∧ ∃ rest, trace (ser_write_r st1 arg [1; 2; 3]).2
               = MutexTake write_mtx TIMEOUT_MAX (mutex_take_ok write_mtx TIMEOUT_MAX)
                 :: rest).
Proof.
  split; [done|]. simpl.
  split; [done|]. split; [done|]. split; [done|].
  assert (Hen : stream_enabled (boot (reserved_files_at 0x1000) []) (stream_id (files (boot (reserved_files_at 0x1000) []) 0x1008))).
  { right. simpl. unfold set_add. set_solver. }
  rewrite (ser_write_r_enabled _ _ _ Hen), ser_write_r_send_trace. simpl. eauto.
Qed.

(** C8: [ser_open_r] returns the standard-output descriptor for the
    empty path; with one leading '/' stripped, the paths "sout", "sin" and
    "serr" give the standard-output, standard-input and standard-error
    descriptors; and it fails with [ENAMETOOLONG] exactly when the stripped
    path has more than four characters. *)
Theorem ser_open_r_names :
  ser_open_r "" = OpenFd STDOUT_FILENO
  ∧ (∀ path, c_str (strip_slash path) = "sout"%string →
             ser_open_r path = OpenFd STDOUT_FILENO)
  ∧ (∀ path, c_str (strip_slash path) = "sin"%string →
             ser_open_r path = OpenFd STDIN_FILENO)
  ∧ (∀ path, c_str (strip_slash path) = "serr"%string →
             ser_open_r path = OpenFd STDERR_FILENO)
  ∧ (∀ path, ser_open_r path = OpenError ENAMETOOLONG
             ↔ (4 < strlen (strip_slash path))%nat).
Proof.
  assert (Hnamed : ∀ path name,
            c_str (strip_slash path) = name → name ≠ EmptyString →
            (String.length name ≤ 4)%nat →
            ser_open_r path =
              if String.eqb name "sout" then OpenFd STDOUT_FILENO
              else if String.eqb name "sin" then OpenFd STDIN_FILENO
              else if String.eqb name "serr" then OpenFd STDERR_FILENO
              else OpenEntry name).
  { intros path name Hc Hname Hlen.
    destruct (Ascii.eqb (char_at path 0) NUL) eqn:Hz.
    - apply strip_slash_empty in Hz. congruence.
    - rewrite (ser_open_r_stripped _ Hz). simpl.
      unfold strlen, strcmp_eq. rewrite Hc.
      destruct (Nat.ltb_spec 4 (String.length name)); [lia|done]. }
  split; [done|].
  split; [intros path H; rewrite (Hnamed _ _ H); [done|done|simpl; lia]|].
  split; [intros path H; rewrite (Hnamed _ _ H); [done|done|simpl; lia]|].
  split; [intros path H; rewrite (Hnamed _ _ H); [done|done|simpl; lia]|].
  intros path. destruct (Ascii.eqb (char_at path 0) NUL) eqn:Hz.
  - unfold ser_open_r, strlen. rewrite Hz, (strip_slash_empty _ Hz). simpl.
    split; [done|lia].
  - rewrite (ser_open_r_stripped _ Hz). simpl.
    destruct (Nat.ltb_spec 4 (strlen (strip_slash path))) as [Hlt|Hge]; [done|].
    split; [|lia].
    repeat match goal with
      | |- context [strcmp_eq ?a ?b] => destruct (strcmp_eq a b)
      end; done.
Qed.

(** C7: with [len > 0] and the read lock taken, [ser_read_r] polls through
    the no-data signals that come before the first byte (and is still
    polling if nothing else comes), then stores the bytes one at a time and
    stops after the byte that is a newline, or that fills the [len] bytes,
    or that is followed by a no-data signal; it returns the number of bytes
    stored, which the caller's buffer then holds in order, followed by a
    zero. *)
Theorem ser_read_r_accumulates
  (st : state) (len k : nat) (body : list Z) (c : Z) (rest left : list Z) :
  (0 < len)%nat →
  mutex_take_ok read_mtx TIMEOUT_MAX = true →
  inp_buffer st = replicate k (-1) ++ body ++ c :: rest →
  Forall (λ b, 0 ≤ b < 256 ∧ b ≠ 10) body →
  0 ≤ c < 256 →
  (S (length body) ≤ len)%nat →
  read_stop len body c rest left →
  let data := body ++ [c] in
  ser_read_r (set_inp_buffer st (replicate k (-1))) len = None
  ∧ ∃ st',
      ser_read_r st len
      = Some (Z.of_nat (length data),
              stores_from 0 data ++ [(length data, 0)], st')
      ∧ inp_buffer st' = left
      ∧ _errno st' = _errno st
      ∧ ∀ mem, (length data < length mem)%nat →
               store_all mem (stores_from 0 data ++ [(length data, 0)])
               = Some (data ++ 0 :: drop (S (length data)) mem).
Proof.
  intros Hlen Hok Hinp Hbody Hc Hfit Hstop data.
  assert (Hdata : length data = S (length body)).
  { unfold data. rewrite length_app. simpl. lia. }
  split.
  { unfold ser_read_r, mutex_take. rewrite Hok. simpl.
    by rewrite ser_read_loop_polling. }
  assert (Hloop : ser_read_loop len 0 [] (inp_buffer st)
                  = Some (length data, stores_from 0 data, left)).
  { rewrite Hinp, ser_read_loop_skip by done.
    rewrite (ser_read_loop_bytes len body 0 [] (c :: rest)) by (done || (simpl; lia)).
    simpl.
    rewrite ser_read_loop_eq.
    destruct (Nat.ltb_spec (length body) len); [|lia].
    destruct (Z.eqb_spec c (-1)); [lia|]. cbv zeta.
    rewrite Hdata. unfold data. rewrite stores_from_app. simpl.
    destruct (Z.eqb_spec c 10) as [Hnl|Hnl].
    - by destruct Hstop as [_|_|rest' Hne _ _].
    - destruct Hstop as [?|Hfull|rest' _ Hlt ->]; [done| |].
      + rewrite ser_read_loop_eq.
        by destruct (Nat.ltb_spec (S (length body)) len); [lia|].
      + rewrite ser_read_loop_eq.
        by destruct (Nat.ltb_spec (S (length body)) len); [|lia]. }
  unfold ser_read_r, mutex_take. rewrite Hok. simpl. rewrite Hloop.
  eexists. split; [done|]. split; [done|]. split; [done|].
  intros mem Hmem. rewrite store_all_app.
  assert (Hrange : Forall (λ b, 0 ≤ b < 256) data).
  { unfold data. apply Forall_app. split.
    - eapply Forall_impl; [exact Hbody|]. by intros b [? _].
    - by constructor. }
  assert (Hst : store_all mem (stores_from 0 data)
                = Some (data ++ drop (length data) mem)).
  { pose proof (store_all_stores_from data [] (take (length data) mem)
                  (drop (length data) mem) Hrange) as H.
    simpl in H. rewrite take_drop in H. apply H. rewrite length_take. lia. }
  rewrite Hst. simpl. unfold store. simpl.
  rewrite length_app, length_drop.
  destruct (Nat.ltb_spec (length data) (length data + (length mem - length data)));
    [|lia].
  replace (length data) with (length data + 0)%nat at 1 by lia.
  rewrite insert_app_r. do 2 f_equal.
  rewrite (drop_S mem (default 0 (mem !! length data)) (length data)); [done|].
  destruct (lookup_lt_is_Some_2 mem (length data) Hmem) as [x Hx].
  by rewrite Hx.
Qed.

(** C10: with the read lock taken, [ser_read_r] comes back from the
    deliveries that hold a value to stop at (a newline, the one that fills
    the [len] bytes, or one that a no-data signal follows) and has then
    stored a zero at offset [read], one past the last accumulated byte: the
    stores are at the offsets 0 to [read], hence [read + 1] bytes in all,
    and they are in bounds exactly when the caller's buffer holds at least
    [read + 1] bytes; when the call fills the [len] bytes asked for, that
    is [len + 1] bytes.  The same holds of every call that returns with the
    lock taken, whatever [len] and the deliveries are. *)
Theorem ser_read_r_terminator
  (st : state) (len k : nat) (body : list Z) (c : Z) (rest left : list Z) :
  mutex_take_ok read_mtx TIMEOUT_MAX = true →
  inp_buffer st = replicate k (-1) ++ body ++ c :: rest →
  Forall (λ b, b ≠ -1 ∧ b ≠ 10) body →
  c ≠ -1 →
  (S (length body) ≤ len)%nat →
  read_stop len body c rest left →
  let read := S (length body) in
  (∃ stores st',
     ser_read_r st len = Some (Z.of_nat read, stores, st')
     ∧ last stores = Some (read, 0)
     ∧ stores.*1 = seq 0 (read + 1)
     ∧ length stores = (read + 1)%nat
     ∧ (∀ mem, is_Some (store_all mem stores) ↔ (read + 1 ≤ length mem)%nat)
     ∧ (read = len →
        length stores = (len + 1)%nat
        ∧ ∀ mem, is_Some (store_all mem stores) ↔ (len + 1 ≤ length mem)%nat))
  ∧ (∀ st0 len0 ret stores st',
       ser_read_r st0 len0 = Some (ret, stores, st') →
       ∃ read0 : nat,
         ret = Z.of_nat read0
         ∧ (read0 ≤ len0)%nat
         ∧ last stores = Some (read0, 0)
         ∧ stores.*1 = seq 0 (read0 + 1)
         ∧ length stores = (read0 + 1)%nat
         ∧ (∀ mem, is_Some (store_all mem stores) ↔ (read0 + 1 ≤ length mem)%nat)
         ∧ (read0 = len0 →
            length stores = (len0 + 1)%nat
            ∧ ∀ mem, is_Some (store_all mem stores)
                     ↔ (len0 + 1 ≤ length mem)%nat)).
Proof.
  intros Hok Hinp Hbody Hc Hfit Hstop read.
  assert (Hall : ∀ st0 len0 ret stores st',
            ser_read_r st0 len0 = Some (ret, stores, st') →
            ∃ read0 : nat,
              ret = Z.of_nat read0
              ∧ (read0 ≤ len0)%nat
              ∧ last stores = Some (read0, 0)
              ∧ stores.*1 = seq 0 (read0 + 1)
              ∧ length stores = (read0 + 1)%nat
              ∧ (∀ mem, is_Some (store_all mem stores)
                        ↔ (read0 + 1 ≤ length mem)%nat)
              ∧ (read0 = len0 →
                 length stores = (len0 + 1)%nat
                 ∧ ∀ mem, is_Some (store_all mem stores)
                          ↔ (len0 + 1 ≤ length mem)%nat)).
  { intros st0 len0 ret stores st' Hret.
    destruct (ser_read_r_stores _ _ _ _ _ Hok Hret)
      as (read0 & Hr & Hle & Hlast & Hfst).
    assert (Hlen : length stores = (read0 + 1)%nat).
    { rewrite <- (length_fmap fst), Hfst. apply length_seq. }
    assert (Hbounds : ∀ mem, is_Some (store_all mem stores)
                             ↔ (read0 + 1 ≤ length mem)%nat).
    { intros mem. rewrite store_all_in_bounds, Hfst, Forall_seq. split.
      - intros H. specialize (H read0). lia.
      - intros H j Hj. lia. }
    exists read0. split; [done|]. split; [done|]. split; [done|].
    split; [done|]. split; [done|]. split; [done|].
    intros ->. by split. }
  split; [|exact Hall].
  assert (Hret : ser_read_r st len
                 = Some (Z.of_nat read,
                         stores_from 0 (body ++ [c]) ++ [(read, 0)],
                         mutex_give
                           (set_inp_buffer
                              (log st (MutexTake read_mtx TIMEOUT_MAX true)) left)
                           read_mtx)).
  { unfold ser_read_r, mutex_take. rewrite Hok. simpl. rewrite Hinp.
    by rewrite (ser_read_loop_stops len k body c rest left). }
  destruct (Hall _ _ _ _ _ Hret) as (read0 & Hr & _ & Hlast & Hfst & Hlen & Hb & Hfull).
  apply Nat2Z.inj in Hr. subst read0.
  eexists _, _. split; [exact Hret|]. done.
Qed.

(** ** Further properties of the serial driver *)

(** Pushing a buffer that does not fit fills the queue up and stops
    there: with a failure in non-blocking mode, waiting in blocking mode. *)
Lemma ser_output_write_overflow (buffer : list Z) (noblock : bool) :
  ∀ q, queue_within_capacity q →
       (q_capacity q < length (q_items q) + length buffer)%nat →
       ser_output_write q buffer noblock
       = (if noblock then Some false else None,
          enqueue q (take (q_capacity q - length (q_items q)) buffer)).
Proof.
  unfold queue_within_capacity.
  induction buffer as [|b buffer IH]; intros q Hle Hlt; simpl in *; [lia|].
  unfold queue_append.
  destruct (Nat.ltb_spec (length (q_items q)) (q_capacity q)) as [Hroom|Hfull].
  - rewrite IH; simpl; rewrite ?length_app; simpl; try lia.
    unfold enqueue. simpl. f_equal. f_equal.
    replace (q_capacity q - length (q_items q))%nat
      with (S (q_capacity q - (length (q_items q) + 1))) by lia.
    simpl. by rewrite <- app_assoc.
  - replace (q_capacity q - length (q_items q))%nat with 0%nat by lia.
    assert (Hq : enqueue q (take 0 (b :: buffer)) = q).
    { unfold enqueue. simpl. rewrite app_nil_r. by destruct q. }
    rewrite Hq. by destruct noblock.
Qed.

(** Pushing keeps a queue within its capacity, and the capacity as it
    is. *)
Lemma ser_output_write_within (buffer : list Z) (noblock : bool) :
  ∀ q, queue_within_capacity q →
       queue_within_capacity (ser_output_write q buffer noblock).2
       ∧ q_capacity (ser_output_write q buffer noblock).2 = q_capacity q.
Proof.
  unfold queue_within_capacity.
  induction buffer as [|b buffer IH]; intros q Hle; simpl; [done|].
  unfold queue_append.
  destruct (Nat.ltb_spec (length (q_items q)) (q_capacity q)) as [Hroom|Hfull];
    [|by destruct (_ =? TIMEOUT_MAX)].
  destruct (IH {| q_items := q_items q ++ [b]; q_capacity := q_capacity q |})
    as [Hin Hcap]; [|done].
  simpl. rewrite length_app. simpl. lia.
Qed.

(** [ser_write_r_send] in one piece: it asks for the lock with
    [write_lock_timeout] and, with the lock, pushes [wire_bytes]. *)
Lemma ser_write_r_send_cases (st : state) (file : ser_file_s_t) (buf : list Z) :
  let t := write_lock_timeout st file in
  let st0 := set_runtime_config st
               (Z.land (ser_driver_runtime_config st) E_COBS_ENABLED) in
  ser_write_r_send st file buf =
    if mutex_take_ok write_mtx t then
      let r := ser_output_write (write_queue st) (wire_bytes st file buf)
                 (noblk_write file) in
      let st2 := mutex_give
                   (set_write_queue (log st0 (MutexTake write_mtx t true)) r.2)
                   write_mtx in
      match r.1 with
      | None =>
          (None, set_write_queue (log st0 (MutexTake write_mtx t true)) r.2)
      | Some true => (Some (Z.of_nat (length buf)), st2)
      | Some false => (Some 0, set_errno st2 EIO)
      end
    else (Some 0, set_errno (log st0 (MutexTake write_mtx t false)) EACCES).
Proof.
  unfold write_lock_timeout, wire_bytes, framing_enabled, ser_write_r_send,
    mutex_take, cobs_encode_measure. simpl.
  destruct (Z.land (ser_driver_runtime_config st) E_COBS_ENABLED =? 0); simpl.
  - destruct (mutex_take_ok write_mtx TIMEOUT_MAX); simpl; [|done].
    by destruct (ser_output_write _ _ _) as [[[]|] q].
  - destruct (mutex_take_ok write_mtx _); simpl; [|done].
    rewrite take_ge by (rewrite length_app; simpl; lia).
    by destruct (ser_output_write _ _ _) as [[[]|] q].
Qed.

(** The framing bit survives the masking that a write does. *)
Lemma framing_enabled_masked (st : state) :
  framing_enabled
    (set_runtime_config st (Z.land (ser_driver_runtime_config st) E_COBS_ENABLED))
  = framing_enabled st.
Proof.
  unfold framing_enabled. simpl. by rewrite <- Z.land_assoc.
Qed.

(** X1: A non-blocking [ser_output_write] of a buffer that does not fit reports
    failure after it has pushed the bytes that did fit: the queue keeps
    what it held, is filled up to its capacity with the leading bytes of
    the buffer, and nothing is backed out. *)
Theorem ser_output_write_noblock_partial (q : queue_t) (buffer : list Z) :
  queue_within_capacity q →
  (q_capacity q < length (q_items q) + length buffer)%nat →
  ser_output_write q buffer true
  = (Some false, enqueue q (take (q_capacity q - length (q_items q)) buffer))
  ∧ length (q_items (ser_output_write q buffer true).2) = q_capacity q.
Proof.
  intros Hle Hlt. rewrite (ser_output_write_overflow buffer true q Hle Hlt).
  split; [done|]. unfold queue_within_capacity in Hle.
  simpl. rewrite length_app, length_take. lia.
Qed.

(** X2: With framing on, a write on an enabled stream that gets the lock and
    finds room for the frame returns the length of the payload, not of the
    frame, and appends to the queue the encoded payload and tag followed by
    one zero byte; [_errno] stays as it was. *)
Theorem ser_write_r_framed (st : state) (arg : Z) (buf : list Z) :
  let file := files st arg in
  let frame := cobs_encode buf (stream_id file) ++ [0] in
  framing_enabled st = true →
  stream_enabled st (stream_id file) →
  mutex_take_ok write_mtx (write_lock_timeout st file) = true →
  has_room (write_queue st) frame →
  (ser_write_r st arg buf).1 = Some (Z.of_nat (length buf))
  ∧ q_items (write_queue (ser_write_r st arg buf).2)
    = q_items (write_queue st) ++ frame
  ∧ _errno (ser_write_r st arg buf).2 = _errno st.
Proof.
  intros file frame Hon Hen Hok Hroom.
  rewrite (ser_write_r_enabled _ _ _ Hen). fold file.
  unfold write_lock_timeout in Hok. rewrite Hon in Hok.
  unfold framing_enabled in Hon. apply negb_true_iff in Hon.
  unfold ser_write_r_send, mutex_take, cobs_encode_measure. simpl.
  rewrite Hon, Hok. simpl.
  replace (take (length (cobs_encode buf (stream_id file)) + 1) _) with frame.
  - rewrite (ser_output_write_room _ _ (noblk_write file) Hroom). by simpl.
  - unfold frame. rewrite take_ge; [done|]. rewrite length_app. simpl. lia.
Qed.

(** X3: A write on a non-blocking handle whose bytes do not fit in the queue
    returns 0 with [EIO], and yet leaves in the queue the leading bytes
    that did fit, up to the capacity: the failed write is not undone. *)
Theorem ser_write_r_eio_partial (st : state) (arg : Z) (buf : list Z) :
  let file := files st arg in
  let wire := wire_bytes st file buf in
  let q := write_queue st in
  stream_enabled st (stream_id file) →
  noblk_write file = true →
  mutex_take_ok write_mtx (write_lock_timeout st file) = true →
  queue_within_capacity q →
  (q_capacity q < length (q_items q) + length wire)%nat →
  (ser_write_r st arg buf).1 = Some 0
  ∧ _errno (ser_write_r st arg buf).2 = Some EIO
  ∧ q_items (write_queue (ser_write_r st arg buf).2)
    = q_items q ++ take (q_capacity q - length (q_items q)) wire
  ∧ length (q_items (write_queue (ser_write_r st arg buf).2)) = q_capacity q.
Proof.
  intros file wire q Hen Hnb Hok Hle Hlt.
  rewrite (ser_write_r_enabled _ _ _ Hen), ser_write_r_send_cases.
  fold file. rewrite Hok. cbv zeta. fold wire. fold q.
  rewrite (ser_output_write_overflow wire (noblk_write file) q Hle Hlt), Hnb.
  simpl. split; [done|]. split; [done|]. split; [done|].
  unfold queue_within_capacity in Hle. rewrite length_app, length_take. lia.
Qed.

(** Where [ser_output_write] stops short: with a failure only in
    non-blocking mode, waiting only in blocking mode and on a full
    queue. *)
Lemma ser_output_write_stops (buffer : list Z) (noblock : bool) :
  ∀ q, ((ser_output_write q buffer noblock).1 = Some false → noblock = true)
       ∧ ((ser_output_write q buffer noblock).1 = None →
          noblock = false
          ∧ (q_capacity (ser_output_write q buffer noblock).2
             ≤ length (q_items (ser_output_write q buffer noblock).2))%nat).
Proof.
  induction buffer as [|b buffer IH]; intros q; simpl; [done|].
  unfold queue_append.
  destruct (Nat.ltb_spec (length (q_items q)) (q_capacity q)) as [Hroom|Hfull];
    [apply IH|].
  by destruct noblock; simpl; split.
Qed.

(** X4: Whatever the call, [ser_write_r] leaves the registry, the handle
    records, the inbound data and the capacity of the queue alone and adds
    to the queue at most leading bytes of what it has to send.  It returns
    in one of three ways: the payload length with [_errno] untouched, 0
    with [EACCES] and the queue untouched, or 0 with [EIO], which only a
    handle with the non-blocking flag gets.  Or it does not return: it
    waits in [queue_append] for room, which only happens to a handle
    without the non-blocking flag, on a full queue, with [_errno]
    untouched. *)
Theorem ser_write_r_outcomes (st : state) (arg : Z) (buf : list Z) :
  let r := ser_write_r st arg buf in
  enabled_streams_set r.2 = enabled_streams_set st
  ∧ files r.2 = files st
  ∧ inp_buffer r.2 = inp_buffer st
  ∧ q_capacity (write_queue r.2) = q_capacity (write_queue st)
  ∧ (∃ k, q_items (write_queue r.2)
          = q_items (write_queue st) ++ take k (wire_bytes st (files st arg) buf))
  ∧ ((r.1 = Some (Z.of_nat (length buf)) ∧ _errno r.2 = _errno st)
     ∨ (r.1 = Some 0 ∧ _errno r.2 = Some EACCES
        ∧ write_queue r.2 = write_queue st)
     ∨ (r.1 = Some 0 ∧ _errno r.2 = Some EIO
        ∧ Z.testbit (flags (files st arg)) 0 = true)
     ∨ (r.1 = None ∧ _errno r.2 = _errno st
        ∧ Z.testbit (flags (files st arg)) 0 = false
        ∧ (q_capacity (write_queue r.2) ≤ length (q_items (write_queue r.2)))%nat)).
Proof.
  unfold ser_write_r.
  destruct (negb _ && negb _).
  { simpl. repeat (split; [done|]). split; [|by left].
    exists 0%nat. by rewrite take_0, app_nil_r. }
  rewrite ser_write_r_send_cases.
  assert (Hnb : noblk_write (files st arg) = Z.testbit (flags (files st arg)) 0)
    by apply land_1_testbit.
  destruct (mutex_take_ok write_mtx _); cbv zeta.
  - destruct (ser_output_write_prefix (write_queue st)
                (wire_bytes st (files st arg) buf) (noblk_write (files st arg)))
      as (k & _ & Hq & _).
    destruct (ser_output_write_stops (wire_bytes st (files st arg) buf)
                (noblk_write (files st arg)) (write_queue st)) as [Hfail Hwait].
    destruct (ser_output_write _ _ _) as [ok q]. simpl in Hq, Hfail, Hwait.
    subst q.
    destruct ok as [[]|]; simpl; repeat (split; [done|]).
    + split; [by exists k|by left].
    + split; [by exists k|]. right. right. left. rewrite Hnb in Hfail.
      split; [done|]. split; [done|]. exact (Hfail eq_refl).
    + split; [by exists k|]. right. right. right. rewrite Hnb in Hwait.
      destruct (Hwait eq_refl) as [Hflag Hfull].
      split; [done|]. split; [done|]. split; [exact Hflag|exact Hfull].
  - simpl. repeat (split; [done|]). split; [|by right; left].
    exists 0%nat. by rewrite take_0, app_nil_r.
Qed.

(** X5: The queue never holds more than its capacity: a queue within its
    capacity is still within it after [ser_write_r] and after
    [ser_output_flush]. *)
Theorem queue_stays_within_capacity (st : state) (arg : Z) (buf : list Z) :
  queue_within_capacity (write_queue st) →
  queue_within_capacity (write_queue (ser_write_r st arg buf).2)
  ∧ queue_within_capacity (write_queue (ser_output_flush st))
  ∧ q_capacity (write_queue (ser_output_flush st)) = q_capacity (write_queue st).
Proof.
  intros Hin. split.
  - unfold ser_write_r. destruct (negb _ && negb _); [done|].
    rewrite ser_write_r_send_cases.
    destruct (mutex_take_ok write_mtx _); cbv zeta; [|done].
    destruct (ser_output_write_within (wire_bytes st (files st arg) buf)
                (noblk_write (files st arg)) (write_queue st) Hin) as [Hq _].
    by destruct (ser_output_write _ _ _) as [[[]|] q].
  - unfold ser_output_flush.
    destruct (negb _ && _); [|done].
    destruct (_ =? _); simpl.
    + split; [|done]. unfold queue_within_capacity. simpl. lia.
    + rewrite queue_recv_iter. simpl. split; [|done].
      unfold queue_within_capacity in *. simpl. rewrite length_drop. lia.
Qed.

(** X6: Two writes in a row that both get the lock and find room leave their
    bytes in the queue in the order of the calls, each in one piece. *)
Theorem ser_write_r_in_order (st : state) (arg1 arg2 : Z) (buf1 buf2 : list Z) :
  let wire1 := wire_bytes st (files st arg1) buf1 in
  let wire2 := wire_bytes st (files st arg2) buf2 in
  let st1 := (ser_write_r st arg1 buf1).2 in
  stream_enabled st (stream_id (files st arg1)) →
  stream_enabled st (stream_id (files st arg2)) →
  mutex_take_ok write_mtx (write_lock_timeout st (files st arg1)) = true →
  mutex_take_ok write_mtx (write_lock_timeout st (files st arg2)) = true →
  has_room (write_queue st) (wire1 ++ wire2) →
  (ser_write_r st arg1 buf1).1 = Some (Z.of_nat (length buf1))
  ∧ (ser_write_r st1 arg2 buf2).1 = Some (Z.of_nat (length buf2))
  ∧ q_items (write_queue (ser_write_r st1 arg2 buf2).2)
    = q_items (write_queue st) ++ wire1 ++ wire2
  ∧ _errno (ser_write_r st1 arg2 buf2).2 = _errno st.
Proof.
  intros wire1 wire2 st1 Hen1 Hen2 Hok1 Hok2 Hroom.
  unfold has_room in Hroom. rewrite length_app in Hroom.
  assert (Hst1 : ser_write_r st arg1 buf1
                 = (Some (Z.of_nat (length buf1)),
                    mutex_give
                      (set_write_queue
                         (log (set_runtime_config st
                                 (Z.land (ser_driver_runtime_config st) E_COBS_ENABLED))
                            (MutexTake write_mtx
                               (write_lock_timeout st (files st arg1)) true))
                         (enqueue (write_queue st) wire1))
                      write_mtx)).
  { rewrite (ser_write_r_enabled _ _ _ Hen1), ser_write_r_send_cases, Hok1.
    cbv zeta. fold wire1.
    rewrite ser_output_write_room by (unfold has_room; lia). done. }
  subst st1. rewrite Hst1. simpl. split; [done|].
  match goal with |- context [ser_write_r ?s arg2 buf2] => set (st1 := s) end.
  assert (Hfr : framing_enabled st1 = framing_enabled st)
    by apply framing_enabled_masked.
  assert (Hen2' : stream_enabled st1 (stream_id (files st1 arg2))) by done.
  rewrite (ser_write_r_enabled _ _ _ Hen2'), ser_write_r_send_cases.
  unfold write_lock_timeout, wire_bytes. rewrite Hfr.
  fold (write_lock_timeout st (files st1 arg2)).
  fold (wire_bytes st (files st1 arg2) buf2).
  change (files st1 arg2) with (files st arg2). rewrite Hok2. cbv zeta.
  fold wire2.
  rewrite ser_output_write_room
    by (unfold has_room; simpl; rewrite length_app; lia).
  simpl. by rewrite <- app_assoc.
Qed.

Lemma elem_of_set_add (s : gset Z) (x y : Z) :
  y ∈ set_add s x ↔ y = x ∨ y ∈ s.
Proof. unfold set_add. by rewrite elem_of_union, elem_of_singleton. Qed.

Lemma elem_of_set_rm (s : gset Z) (x y : Z) :
  y ∈ set_rm s x ↔ y ∈ s ∧ y ≠ x.
Proof. unfold set_rm. by rewrite elem_of_difference, elem_of_singleton. Qed.

(** X7: For a tag that is not a guaranteed-delivery tag: after
    [SERCTL_ACTIVATE] a write on a handle with that tag passes the filter;
    after a [SERCTL_DEACTIVATE] that follows, it is filtered again, returns
    the payload length and changes nothing; and neither verb changes
    whether any other tag is in the registry. *)
Theorem serctl_activate_deactivate
  (st : state) (ctl_arg arg tag : Z) (buf : list Z) :
  let st_on := (serctl st ctl_arg SERCTL_ACTIVATE tag).2 in
  let st_off := (serctl st_on ctl_arg SERCTL_DEACTIVATE tag).2 in
  tag ∉ guaranteed_delivery_streams →
  stream_id (files st arg) = tag →
  (serctl st ctl_arg SERCTL_ACTIVATE tag).1 = 0
  ∧ (serctl st_on ctl_arg SERCTL_DEACTIVATE tag).1 = 0
  ∧ ser_write_r st_on arg buf = ser_write_r_send st_on (files st arg) buf
  ∧ ser_write_r st_off arg buf = (Some (Z.of_nat (length buf)), st_off)
  ∧ (∀ other, other ≠ tag →
       (other ∈ enabled_streams_set st_on ↔ other ∈ enabled_streams_set st)
       ∧ (other ∈ enabled_streams_set st_off ↔ other ∈ enabled_streams_set st)).
Proof.
  intros st_on st_off Hng Hid.
  apply list_contains_not_guaranteed in Hng as Hlc.
  assert (Hon : st_on = set_enabled_streams_set st
                          (set_add (enabled_streams_set st) tag)).
  { unfold st_on, serctl. by rewrite Hlc. }
  assert (Hoff : st_off = set_enabled_streams_set st_on
                            (set_rm (enabled_streams_set st_on) tag)).
  { unfold st_off, serctl. by rewrite Hlc. }
  split; [unfold serctl; by rewrite Hlc|].
  split; [unfold serctl; by rewrite Hlc|].
  split; [|split].
  - assert (Hen : stream_enabled st_on (stream_id (files st_on arg))).
    { right. rewrite Hon. simpl. rewrite Hid. apply elem_of_set_add. by left. }
    rewrite (ser_write_r_enabled _ _ _ Hen). by rewrite Hon.
  - assert (Hdis : ¬ stream_enabled st_off (stream_id (files st_off arg))).
    { rewrite Hoff, Hon. simpl. rewrite Hid. intros [Hg|He]; [done|].
      simpl in He. apply elem_of_set_rm in He as [_ He]. done. }
    apply filter_true_iff in Hdis. unfold ser_write_r. by rewrite Hdis.
  - intros other Hne. rewrite Hoff, Hon. simpl.
    rewrite elem_of_set_rm, elem_of_set_add. split.
    + split; [by intros [?|?]|by right].
    + split; [by intros [[?|?] _]|by intros ?; split; [right|]].
Qed.

(** X8: [SERCTL_DISABLE_COBS] turns framing off and [SERCTL_ENABLE_COBS] turns
    it on, whatever it was before; both return 0, change no other bit of
    the configuration word and nothing else of the state. *)
Theorem serctl_framing_switch (st : state) (arg parameter : Z) :
  let off := serctl st arg SERCTL_DISABLE_COBS parameter in
  let on := serctl st arg SERCTL_ENABLE_COBS parameter in
  off.1 = 0 ∧ on.1 = 0
  ∧ framing_enabled off.2 = false
  ∧ framing_enabled on.2 = true
  ∧ (∀ i, 0 < i →
       Z.testbit (ser_driver_runtime_config off.2) i
       = Z.testbit (ser_driver_runtime_config st) i
       ∧ Z.testbit (ser_driver_runtime_config on.2) i
         = Z.testbit (ser_driver_runtime_config st) i)
  ∧ off.2 = set_runtime_config st (ser_driver_runtime_config off.2)
  ∧ on.2 = set_runtime_config st (ser_driver_runtime_config on.2).
Proof.
  simpl. unfold framing_enabled, E_COBS_ENABLED. simpl.
  split; [done|]. split; [done|]. split; [|split; [|split; [|done]]].
  - rewrite <- Z.land_assoc. change (Z.land (Z.lnot 1) 1) with 0.
    by rewrite Z.land_0_r.
  - apply negb_true_iff, Z.eqb_neq. intros H.
    assert (Hb : Z.testbit (Z.land (Z.lor (ser_driver_runtime_config st) 1) 1) 0
                 = true).
    { rewrite Z.land_spec, Z.lor_spec. simpl. by rewrite orb_true_r. }
    rewrite H in Hb. by rewrite Z.bits_0 in Hb.
  - intros i Hi.
    assert (H1 : Z.testbit 1 i = false).
    { destruct i as [|i|i]; try lia. by destruct i. }
    rewrite Z.land_spec, Z.lor_spec, Z.lnot_spec, H1 by lia. simpl.
    by rewrite andb_true_r, orb_false_r.
Qed.

(** X9: Whatever the verb and its arguments, [serctl] leaves the queue, the
    handle records, [_errno], the inbound data and the lock trace alone;
    it returns 0 for its six verbs and -1, as an unsigned word, for any
    other action code, which changes nothing at all. *)
Theorem serctl_leaves_io_alone
  (st : state) (arg : Z) (action : serctl_action) (parameter : Z) :
  let r := serctl st arg action parameter in
  write_queue r.2 = write_queue st
  ∧ files r.2 = files st
  ∧ _errno r.2 = _errno st
  ∧ inp_buffer r.2 = inp_buffer st
  ∧ trace r.2 = trace st
  ∧ match action with
    | SERCTL_OTHER _ => r = (0xffffffff, st)
    | _ => r.1 = 0
    end.
Proof.
  destruct action; simpl; try done;
    destruct (negb (list_contains _ _ _)); done.
Qed.

(** X10: After [ser_driver_initialize], whatever the state was before, the
    tags that pass the write filter are exactly the standard-output and
    the standard-error tag, framing is on, and the queue is empty with
    room for [VEX_SERIAL_BUFFER_SIZE] bytes. *)
Theorem ser_driver_initialize_policy (st : state) :
  let st' := ser_driver_initialize st in
  (∀ id, stream_enabled st' id ↔ id = STDOUT_STREAM_ID ∨ id = STDERR_STREAM_ID)
  ∧ framing_enabled st' = true
  ∧ q_items (write_queue st') = []
  ∧ q_capacity (write_queue st') = VEX_SERIAL_BUFFER_SIZE.
Proof.
  simpl. split; [|split; [|done]].
  - intros id. unfold stream_enabled. rewrite guaranteed_is_stderr. simpl.
    rewrite elem_of_set_add. split.
    + intros [?|[?|Hin]]; [by right|by left|].
      by apply not_elem_of_empty in Hin.
    + intros [?|?]; [by right; left|by left].
  - unfold framing_enabled. simpl. unfold E_COBS_ENABLED.
    apply negb_true_iff, Z.eqb_neq. intros H.
    assert (Hb : Z.testbit (Z.land (Z.lor (ser_driver_runtime_config st) 1) 1) 0
                 = true).
    { rewrite Z.land_spec, Z.lor_spec. simpl. by rewrite orb_true_r. }
    rewrite H in Hb. by rewrite Z.bits_0 in Hb.
Qed.

(** The deliveries that the read loop takes off the inbound source: the
    values other than -1 among them are all stored, in order, and counted;
    what it has not taken stays for the next call. *)
Lemma ser_read_loop_no_loss (len : nat) (inp : list Z) :
  ∀ (read : nat) (stores : list (nat * Z)) r stores' inp',
    ser_read_loop len read stores inp = Some (r, stores', inp') →
    ∃ consumed,
      inp = consumed ++ inp'
      ∧ r = (read + length (delivered_bytes consumed))%nat
      ∧ stores' = stores ++ stores_from read (delivered_bytes consumed).
Proof.
  unfold delivered_bytes.
  induction inp as [|c inp IH]; intros read stores r stores' inp';
    rewrite ser_read_loop_eq; destruct (read <? len)%nat; try done.
  - intros [= <- <- <-]. exists []. simpl.
    by rewrite Nat.add_0_r, app_nil_r.
  - destruct (Z.eqb_spec c (-1)) as [->|Hc].
    + destruct (negb (read =? 0)%nat).
      * intros [= <- <- <-]. exists [-1]. simpl.
        by rewrite Nat.add_0_r, app_nil_r.
      * intros Hloop. apply IH in Hloop as (consumed & -> & -> & ->).
        by exists (-1 :: consumed).
    + cbv zeta. destruct (c =? 10).
      * intros [= <- <- <-]. exists [c].
        rewrite filter_cons, decide_True by done. simpl.
        split; [done|]. split; [lia|done].
      * intros Hloop. apply IH in Hloop as (consumed & -> & -> & ->).
        exists (c :: consumed). split; [done|].
        rewrite filter_cons, decide_True by done. simpl.
        split; [lia|]. by rewrite <- app_assoc.
  - intros [= <- <- <-]. exists []. simpl.
    by rewrite Nat.add_0_r, app_nil_r.
Qed.

(** X11: A call of [ser_open_r] ends in [vfs_add_entry_r] exactly when the path
    is not empty, has at most four characters once one leading '/' is
    skipped, and is none of "sout", "sin" and "serr"; the new record then
    starts with those characters.  So "/" opens a stream with no tag
    characters, and "sinp" and "kdbg", the tags of the reserved standard
    input and debug records, open new streams. *)
Theorem ser_open_r_new_entry (path t : string) :
  ser_open_r path = OpenEntry t
  ↔ Ascii.eqb (char_at path 0) NUL = false
    ∧ t = c_str (strip_slash path)
    ∧ (String.length t ≤ 4)%nat
    ∧ t ≠ "sout"%string ∧ t ≠ "sin"%string ∧ t ≠ "serr"%string.
Proof.
  destruct (Ascii.eqb (char_at path 0) NUL) eqn:Hz.
  { unfold ser_open_r. rewrite Hz. split; [done|by intros [? _]]. }
  rewrite (ser_open_r_stripped _ Hz). cbv zeta.
  unfold strlen, strcmp_eq. simpl c_str.
  destruct (Nat.ltb_spec 4 (String.length (c_str (strip_slash path)))) as [Hlt|Hle].
  { split; [done|]. intros (_ & -> & Hlen & _). lia. }
  destruct (String.eqb_spec (c_str (strip_slash path)) "sout") as [He|Hsout].
  { split; [done|]. intros (_ & -> & _ & Hne & _). done. }
  destruct (String.eqb_spec (c_str (strip_slash path)) "sin") as [He|Hsin].
  { split; [done|]. intros (_ & -> & _ & _ & Hne & _). done. }
  destruct (String.eqb_spec (c_str (strip_slash path)) "serr") as [He|Hserr].
  { split; [done|]. intros (_ & -> & _ & _ & _ & Hne). done. }
  split.
  - intros [= <-]. done.
  - by intros (_ & -> & _).
Qed.

(** X12: With [len = 0] and the lock taken, [ser_read_r] returns 0 at once,
    whatever the inbound source holds and also when it holds nothing: it
    takes no delivery and does not poll, and still stores the terminating
    zero, at offset 0. *)
Theorem ser_read_r_zero_len (st : state) :
  mutex_take_ok read_mtx TIMEOUT_MAX = true →
  ∃ st', ser_read_r st 0 = Some (0, [(0%nat, 0)], st')
         ∧ inp_buffer st' = inp_buffer st
         ∧ _errno st' = _errno st
         ∧ trace st' = trace st ++ [MutexTake read_mtx TIMEOUT_MAX true;
                                    MutexGive read_mtx].
Proof.
  intros Hok. unfold ser_read_r, mutex_take. rewrite Hok. simpl.
  rewrite ser_read_loop_eq. simpl. eexists. split; [done|].
  simpl. by rewrite <- app_assoc.
Qed.

(** X13: A read that returns has lost nothing: the deliveries it took off the
    inbound source are a leading part of what was pending, every value
    other than -1 among them was stored (as a byte), in order and from
    offset 0 on, the count returned is their number, and the rest is left
    for the next read. *)
Theorem ser_read_r_no_loss
  (st : state) (len : nat) (ret : Z) (stores : list (nat * Z)) (st' : state) :
  mutex_take_ok read_mtx TIMEOUT_MAX = true →
  ser_read_r st len = Some (ret, stores, st') →
  ∃ consumed,
    let data := delivered_bytes consumed in
    inp_buffer st = consumed ++ inp_buffer st'
    ∧ ret = Z.of_nat (length data)
    ∧ (length data ≤ len)%nat
    ∧ stores = stores_from 0 data ++ [(length data, 0)].
Proof.
  intros Hok. unfold ser_read_r, mutex_take. rewrite Hok. simpl.
  destruct (ser_read_loop len 0 [] (inp_buffer st)) as [[[read acc] inp']|] eqn:Hloop;
    [|done].
  intros [= <- <- <-].
  destruct (ser_read_loop_offsets _ _ _ _ _ _ _ (Nat.le_0_l len) Hloop) as [Hle _].
  apply ser_read_loop_no_loss in Hloop as (consumed & Hinp & Hr & Hst).
  exists consumed. simpl in *. subst read acc.
  split; [done|]. split; [done|]. split; [lia|done].
Qed.

(** X14: [ser_output_flush] does nothing at all when the queue is empty, when
    the transport reports less free space than there are bytes waiting, or
    when the transport accepts none of the bytes offered. *)
Theorem ser_output_flush_noop (st : state) :
  q_items (write_queue st) = []
  ∨ vexSerialWriteFree < queue_get_waiting (write_queue st)
  ∨ vexSerialWriteBuffer (queue_get_waiting (write_queue st)) = 0 →
  ser_output_flush st = st.
Proof.
  unfold ser_output_flush, queue_get_waiting. intros Hcase.
  destruct (Z.eqb_spec (Z.of_nat (length (q_items (write_queue st)))) 0) as [Hz|Hnz];
    [done|].
  destruct (Z.leb_spec (Z.of_nat (length (q_items (write_queue st))))
              vexSerialWriteFree) as [Hfree|Hfull]; [|done].
  simpl. destruct Hcase as [Hempty|[Hlt|Hnone]].
  - rewrite Hempty in Hnz. done.
  - unfold queue_get_waiting in Hlt. lia.
  - unfold queue_get_waiting in Hnone. rewrite Hnone.
    destruct (Z.eqb_spec 0 (Z.of_nat (length (q_items (write_queue st)))));
      [lia|].
    simpl. destruct st as [? ? [? ?] ? ? ? ?]. done.
Qed.

(** X15: Whatever the transport answers, [ser_output_flush] only takes bytes
    off the head of the queue: what is left is what the queue held from
    some position on, in the same order, and nothing but the queue
    changes.  A transport that reports at least as many bytes accepted as
    were offered leaves the queue empty. *)
Theorem ser_output_flush_head_only (st : state) :
  let n := queue_get_waiting (write_queue st) in
  let st' := ser_output_flush st in
  (∃ k, q_items (write_queue st') = drop k (q_items (write_queue st)))
  ∧ st' = set_write_queue st (write_queue st')
  ∧ (0 < n → n ≤ vexSerialWriteFree → n ≤ vexSerialWriteBuffer n →
     q_items (write_queue st') = []).
Proof.
  intros n st'. subst st'. unfold ser_output_flush. fold n.
  destruct (Z.eqb_spec n 0) as [Hz|Hnz]; simpl.
  { split; [by exists 0%nat|]. split; [by destruct st|]. lia. }
  destruct (Z.leb_spec n vexSerialWriteFree) as [Hfree|Hfull]; simpl.
  - destruct (Z.eqb_spec (vexSerialWriteBuffer n) n) as [Heq|Hne]; simpl.
    + split; [|done]. exists (length (q_items (write_queue st))).
      by rewrite drop_all.
    + rewrite queue_recv_iter. simpl. split; [by eexists|]. split; [done|].
      intros _ _ Hall. apply drop_ge. unfold n, queue_get_waiting in *. lia.
  - split; [by exists 0%nat|]. split; [by destruct st|]. lia.
Qed.

End SerDriver.

(** ** The properties on concrete runs *)

Lemma ser_write_r_filtered_witness :
  let st := boot (reserved_files_at 0x1000) [] in
  let r := ser_write_r plain_codec locks_free st 0x1018 [1; 2; 3] in
  stream_id (files st 0x1018) = KDBG_STREAM_ID
  ∧ r.1 = Some 3 ∧ _errno r.2 = None ∧ q_items (write_queue r.2) = []
  ∧ r.2 = st.
Proof.
  split; [reflexivity|].
  apply (ser_write_r_filtered plain_codec locks_free (boot (reserved_files_at 0x1000) []) 0x1018 [1; 2; 3]).
  - apply list_contains_not_guaranteed. vm_compute. reflexivity.
  - apply set_contains_false. vm_compute. reflexivity.
Defined.

Lemma stderr_never_filtered_witness :
  let st := set_enabled_streams_set (boot (reserved_files_at 0x1000) []) ∅ in
  let r := ser_write_r plain_codec locks_free st 0x1010 [1; 2; 3] in
  r = ser_write_r_send plain_codec locks_free st (files st 0x1010) [1; 2; 3]
  ∧ (∃ t rest, trace r.2 = trace st ++ MutexTake write_mtx t (locks_free write_mtx t) :: rest)
  ∧ serctl st 0 SERCTL_ACTIVATE STDERR_STREAM_ID = (0, st)
  ∧ serctl st 0 SERCTL_DEACTIVATE STDERR_STREAM_ID = (0, st)
  ∧ enabled_streams_set (serctl st 0 SERCTL_ACTIVATE STDERR_STREAM_ID).2 = ∅
  ∧ enabled_streams_set (serctl st 0 SERCTL_DEACTIVATE STDERR_STREAM_ID).2 = ∅.
Proof.
  apply (stderr_never_filtered plain_codec locks_free
           (set_enabled_streams_set (boot (reserved_files_at 0x1000) []) ∅)
           0x1010 [1; 2; 3] 0 STDERR_STREAM_ID).
  - reflexivity.
  - apply list_contains_guaranteed. reflexivity.
Defined.

Lemma ser_write_r_lock_timeout_witness :
  let nonblocking := boot noblk_stdout_files [] in
  let blocking := boot (reserved_files_at 0x1000) [] in
  let unframed := (serctl nonblocking 0 SERCTL_DISABLE_COBS 0).2 in
  (flags (files nonblocking 0x2000) = 1
   ∧ trace (ser_write_r plain_codec locks_held nonblocking 0x2000 [1; 2; 3]).2
     = [MutexTake write_mtx 0 false])
  ∧ (flags (files blocking 0x1008) = 0
     ∧ trace (ser_write_r plain_codec locks_free blocking 0x1008 [1; 2; 3]).2
       = [MutexTake write_mtx TIMEOUT_MAX true; MutexGive write_mtx])
  ∧ (flags (files unframed 0x2000) = 1
     ∧ trace (ser_write_r plain_codec locks_held unframed 0x2000 [1; 2; 3]).2
       = [MutexTake write_mtx TIMEOUT_MAX false]).
Proof.
  split; [|split].
  - split; [reflexivity|].
    destruct (ser_write_r_lock_timeout plain_codec locks_held
                (boot noblk_stdout_files []) 0x2000 [1; 2; 3])
      as (t & Htrace & _ & Hnoblk & _).
    + right. apply set_contains_true. vm_compute. reflexivity.
    + rewrite (Hnoblk eq_refl eq_refl) in Htrace. exact Htrace.
  - split; [reflexivity|].
    destruct (ser_write_r_lock_timeout plain_codec locks_free
                (boot (reserved_files_at 0x1000) []) 0x1008 [1; 2; 3])
      as (t & Htrace & _ & _ & Hblk).
    + right. apply set_contains_true. vm_compute. reflexivity.
    + rewrite (Hblk eq_refl eq_refl) in Htrace. exact Htrace.
  - split; [reflexivity|].
    destruct (ser_write_r_lock_timeout plain_codec locks_held
                (serctl (boot noblk_stdout_files []) 0 SERCTL_DISABLE_COBS 0).2
                0x2000 [1; 2; 3])
      as (t & Htrace & Hoff & _ & _).
    + right. apply set_contains_true. vm_compute. reflexivity.
    + rewrite (Hoff eq_refl) in Htrace. exact Htrace.
Defined.

Lemma ser_output_flush_removes_accepted_witness :
  let st := set_write_queue (boot (reserved_files_at 0x1000) [])
              {| q_items := [1; 2; 3; 4; 5; 6; 7; 8; 9; 10];
                 q_capacity := VEX_SERIAL_BUFFER_SIZE |} in
  let st' := ser_output_flush 64 (λ _, 3) st in
  (3 < 10 →
   q_items (write_queue st') = drop 3 (q_items (write_queue st))
   ∧ queue_get_waiting (write_queue st') = 10 - 3
   ∧ take 3 (q_items (write_queue st)) ++ q_items (write_queue st')
     = q_items (write_queue st))
  ∧ (3 = 10 → q_items (write_queue st') = [])
  ∧ st' = set_write_queue st (write_queue st').
Proof.
  apply (ser_output_flush_removes_accepted 64 (λ _, 3)
           (set_write_queue (boot (reserved_files_at 0x1000) [])
              {| q_items := [1; 2; 3; 4; 5; 6; 7; 8; 9; 10];
                 q_capacity := VEX_SERIAL_BUFFER_SIZE |}) 3).
  - vm_compute. reflexivity.
  - vm_compute. discriminate.
  - reflexivity.
  - vm_compute. split; discriminate.
Defined.

Lemma lock_timeout_is_eacces_witness :
  let st := boot (reserved_files_at 0x1000) [104; 105; 10] in
  (∃ st', ser_read_r locks_held st 8 = Some (0, [], st')
          ∧ _errno st' = Some EACCES
          ∧ inp_buffer st' = inp_buffer st)
  ∧ (∃ st', ser_write_r plain_codec locks_held st 0x1008 [1; 2; 3] = (Some 0, st')
            ∧ _errno st' = Some EACCES
            ∧ write_queue st' = write_queue st).
Proof.
  destruct (lock_timeout_is_eacces plain_codec locks_held
              (boot (reserved_files_at 0x1000) [104; 105; 10]) 0x1008 [1; 2; 3] 8)
    as [Hread Hwrite].
  split.
  - apply Hread. reflexivity.
  - apply Hwrite.
    + right. apply set_contains_true. vm_compute. reflexivity.
    + reflexivity.
Defined.

Lemma ser_read_r_accumulates_witness :
  let st := boot (reserved_files_at 0x1000) [-1; -1; 104; 105; 10; 33] in
  ser_read_r locks_free (set_inp_buffer st (replicate 2 (-1))) 8 = None
  ∧ ∃ st',
      ser_read_r locks_free st 8
      = Some (3, stores_from 0 [104; 105; 10] ++ [(3%nat, 0)], st')
      ∧ inp_buffer st' = [33]
      ∧ _errno st' = _errno st
      ∧ ∀ mem, (3 < length mem)%nat →
               store_all mem (stores_from 0 [104; 105; 10] ++ [(3%nat, 0)])
               = Some ([104; 105; 10] ++ 0 :: drop 4 mem).
Proof.
  apply (ser_read_r_accumulates locks_free
           (boot (reserved_files_at 0x1000) [-1; -1; 104; 105; 10; 33])
           8 2 [104; 105] 10 [33] [33]).
  - lia.
  - reflexivity.
  - reflexivity.
  - repeat constructor; lia.
  - lia.
  - simpl. lia.
  - apply stop_newline. reflexivity.
Defined.

Lemma ser_open_r_names_witness :
  ser_open_r "" = OpenFd STDOUT_FILENO
  ∧ ser_open_r "/sout" = OpenFd STDOUT_FILENO
  ∧ ser_open_r "sin" = OpenFd STDIN_FILENO
  ∧ ser_open_r "serr" = OpenFd STDERR_FILENO
  ∧ ser_open_r "toolong" = OpenError ENAMETOOLONG
  ∧ ser_open_r "jinx" ≠ OpenError ENAMETOOLONG.
Proof.
  destruct ser_open_r_names as (Hempty & Hsout & Hsin & Hserr & Hlong).
  split; [exact Hempty|].
  split; [apply Hsout; reflexivity|].
  split; [apply Hsin; reflexivity|].
  split; [apply Hserr; reflexivity|].
  split.
  - apply Hlong. vm_compute. lia.
  - intros H. apply Hlong in H. vm_compute in H. lia.
Defined.

Lemma ser_write_r_raw_payload_witness :
  let st := (serctl (boot (reserved_files_at 0x1000) []) 0 SERCTL_DISABLE_COBS 0).2 in
  let r := ser_write_r plain_codec locks_free st 0x1008 [1; 2; 3] in
  r.1 = Some 3
  ∧ q_items (write_queue r.2) = q_items (write_queue st) ++ [1; 2; 3]
  ∧ _errno r.2 = _errno st.
Proof.
  destruct (ser_write_r_raw_payload plain_codec locks_free
              (serctl (boot (reserved_files_at 0x1000) []) 0 SERCTL_DISABLE_COBS 0).2
              0x1008 [1; 2; 3]) as [Hsent _].
  - reflexivity.
  - right. apply set_contains_true. vm_compute. reflexivity.
  - apply Hsent.
    + reflexivity.
    + unfold has_room. simpl. unfold VEX_SERIAL_BUFFER_SIZE. lia.
Defined.

Lemma ser_read_r_terminator_witness :
  let st := boot (reserved_files_at 0x1000) [-1; 65; 66; 67; 68] in
  ∃ stores st',
    ser_read_r locks_free st 3 = Some (3, stores, st')
    ∧ last stores = Some (3%nat, 0)
    ∧ stores.*1 = [0; 1; 2; 3]%nat
    ∧ length stores = 4%nat
    ∧ (∀ mem, is_Some (store_all mem stores) ↔ (4 ≤ length mem)%nat).
Proof.
  destruct (ser_read_r_terminator locks_free
              (boot (reserved_files_at 0x1000) [-1; 65; 66; 67; 68])
              3 1 [65; 66] 67 [68] [68])
    as [(stores & st' & Hret & Hlast & Hfst & Hlen & _ & Hfull) _].
  - reflexivity.
  - reflexivity.
  - repeat constructor; lia.
  - lia.
  - simpl. lia.
  - apply stop_full. reflexivity.
  - exists stores, st'.
    split; [exact Hret|]. split; [exact Hlast|]. split; [exact Hfst|].
    split; [exact Hlen|]. exact (proj2 (Hfull eq_refl)).
Defined.

(** *** Further properties on concrete runs *)

Lemma ser_output_write_noblock_partial_witness :
  let q := {| q_items := [7; 8]; q_capacity := 4 |} in
  ser_output_write q [1; 2; 3] true
  = (Some false, enqueue q (take (4 - 2) [1; 2; 3]))
  ∧ length (q_items (ser_output_write q [1; 2; 3] true).2) = 4%nat.
Proof.
  apply (ser_output_write_noblock_partial
           {| q_items := [7; 8]; q_capacity := 4 |} [1; 2; 3]).
  - unfold queue_within_capacity. simpl. lia.
  - simpl. lia.
Defined.

(** A full queue: the handle without the non-blocking flag waits for room
    with the lock held, the handle with the flag gets [EIO]. *)
Lemma ser_write_r_full_queue_example :
  let full := {| q_items := [7; 8]; q_capacity := 2 |} in
  let blocking := set_write_queue (boot (reserved_files_at 0x1000) []) full in
  let nonblocking := set_write_queue (boot noblk_stdout_files []) full in
  let waits := ser_write_r plain_codec locks_free blocking 0x1008 [1; 2; 3] in
  let fails := ser_write_r plain_codec locks_free nonblocking 0x2000 [1; 2; 3] in
  (waits.1 = None
   ∧ _errno waits.2 = None
   ∧ trace waits.2 = [MutexTake write_mtx TIMEOUT_MAX true]
   ∧ write_queue waits.2 = full)
  ∧ (fails.1 = Some 0
     ∧ _errno fails.2 = Some EIO
     ∧ trace fails.2 = [MutexTake write_mtx 0 true; MutexGive write_mtx]
     ∧ write_queue fails.2 = full).
Proof. vm_compute. repeat split. Qed.

Lemma ser_write_r_framed_witness :
  let st := boot (reserved_files_at 0x1000) [] in
  let r := ser_write_r plain_codec locks_free st 0x1008 [1; 2; 3] in
  r.1 = Some 3
  ∧ q_items (write_queue r.2) = q_items (write_queue st) ++ [1; 2; 3] ++ [0]
  ∧ _errno r.2 = _errno st.
Proof.
  apply (ser_write_r_framed plain_codec locks_free
           (boot (reserved_files_at 0x1000) []) 0x1008 [1; 2; 3]).
  - reflexivity.
  - right. apply set_contains_true. vm_compute. reflexivity.
  - reflexivity.
  - unfold has_room. simpl. unfold VEX_SERIAL_BUFFER_SIZE. lia.
Defined.

Lemma ser_write_r_eio_partial_witness :
  let st := set_write_queue (boot noblk_stdout_files [])
              {| q_items := [7; 8]; q_capacity := 4 |} in
  let r := ser_write_r plain_codec locks_free st 0x2000 [1; 2; 3] in
  r.1 = Some 0
  ∧ _errno r.2 = Some EIO
  ∧ q_items (write_queue r.2) = [7; 8] ++ take (4 - 2) [1; 2; 3; 0]
  ∧ length (q_items (write_queue r.2)) = 4%nat.
Proof.
  apply (ser_write_r_eio_partial plain_codec locks_free
           (set_write_queue (boot noblk_stdout_files [])
              {| q_items := [7; 8]; q_capacity := 4 |}) 0x2000 [1; 2; 3]).
  - right. apply set_contains_true. vm_compute. reflexivity.
  - reflexivity.
  - reflexivity.
  - unfold queue_within_capacity. simpl. lia.
  - simpl. lia.
Defined.

Lemma queue_stays_within_capacity_witness :
  let st := set_write_queue (boot noblk_stdout_files [])
              {| q_items := [7; 8]; q_capacity := 4 |} in
  queue_within_capacity
    (write_queue (ser_write_r plain_codec locks_free st 0x2000 [1; 2; 3]).2)
  ∧ queue_within_capacity (write_queue (ser_output_flush 64 (λ _, 1) st))
  ∧ q_capacity (write_queue (ser_output_flush 64 (λ _, 1) st)) = 4%nat.
Proof.
  apply (queue_stays_within_capacity plain_codec locks_free 64 (λ _, 1)
           (set_write_queue (boot noblk_stdout_files [])
              {| q_items := [7; 8]; q_capacity := 4 |}) 0x2000 [1; 2; 3]).
  unfold queue_within_capacity. simpl. lia.
Defined.

Lemma ser_write_r_in_order_witness :
  let st := boot (reserved_files_at 0x1000) [] in
  let st1 := (ser_write_r plain_codec locks_free st 0x1008 [1; 2]).2 in
  (ser_write_r plain_codec locks_free st 0x1008 [1; 2]).1 = Some 2
  ∧ (ser_write_r plain_codec locks_free st1 0x1010 [3]).1 = Some 1
  ∧ q_items (write_queue (ser_write_r plain_codec locks_free st1 0x1010 [3]).2)
    = [] ++ [1; 2; 0] ++ [3; 0]
  ∧ _errno (ser_write_r plain_codec locks_free st1 0x1010 [3]).2 = None.
Proof.
  apply (ser_write_r_in_order plain_codec locks_free
           (boot (reserved_files_at 0x1000) []) 0x1008 0x1010 [1; 2] [3]).
  - right. apply set_contains_true. vm_compute. reflexivity.
  - left. apply list_contains_guaranteed. reflexivity.
  - reflexivity.
  - reflexivity.
  - unfold has_room. simpl. unfold VEX_SERIAL_BUFFER_SIZE. lia.
Defined.

Lemma serctl_activate_deactivate_witness :
  let st := boot (reserved_files_at 0x1000) [] in
  let st_on := (serctl st 0 SERCTL_ACTIVATE KDBG_STREAM_ID).2 in
  let st_off := (serctl st_on 0 SERCTL_DEACTIVATE KDBG_STREAM_ID).2 in
  (serctl st 0 SERCTL_ACTIVATE KDBG_STREAM_ID).1 = 0
  ∧ (serctl st_on 0 SERCTL_DEACTIVATE KDBG_STREAM_ID).1 = 0
  ∧ ser_write_r plain_codec locks_free st_on 0x1018 [1; 2; 3]
    = ser_write_r_send plain_codec locks_free st_on (files st 0x1018) [1; 2; 3]
  ∧ ser_write_r plain_codec locks_free st_off 0x1018 [1; 2; 3] = (Some 3, st_off)
  ∧ (∀ other, other ≠ KDBG_STREAM_ID →
       (other ∈ enabled_streams_set st_on ↔ other ∈ enabled_streams_set st)
       ∧ (other ∈ enabled_streams_set st_off ↔ other ∈ enabled_streams_set st)).
Proof.
  apply (serctl_activate_deactivate plain_codec locks_free
           (boot (reserved_files_at 0x1000) []) 0 0x1018 KDBG_STREAM_ID [1; 2; 3]).
  - apply list_contains_not_guaranteed. vm_compute. reflexivity.
  - reflexivity.
Defined.

Lemma ser_open_r_new_entry_witness :
  ser_open_r "/" = OpenEntry ""
  ∧ ser_open_r "sinp" = OpenEntry "sinp"
  ∧ ser_open_r "/kdbg" = OpenEntry "kdbg"
  ∧ ser_open_r "sout" ≠ OpenEntry "sout".
Proof.
  split; [|split; [|split]].
  - apply (ser_open_r_new_entry "/" ""). vm_compute.
    repeat split; (lia || discriminate).
  - apply (ser_open_r_new_entry "sinp" "sinp"). vm_compute.
    repeat split; (lia || discriminate).
  - apply (ser_open_r_new_entry "/kdbg" "kdbg"). vm_compute.
    repeat split; (lia || discriminate).
  - intros H. apply (ser_open_r_new_entry "sout" "sout") in H.
    destruct H as (_ & _ & _ & Hne & _). apply Hne. reflexivity.
Defined.

Lemma ser_read_r_zero_len_witness :
  let st := boot (reserved_files_at 0x1000) [] in
  ∃ st', ser_read_r locks_free st 0 = Some (0, [(0%nat, 0)], st')
         ∧ inp_buffer st' = []
         ∧ _errno st' = None
         ∧ trace st' = [] ++ [MutexTake read_mtx TIMEOUT_MAX true;
                              MutexGive read_mtx].
Proof.
  apply (ser_read_r_zero_len locks_free (boot (reserved_files_at 0x1000) [])).
  reflexivity.
Defined.

Lemma ser_read_r_no_loss_witness :
  let st := boot (reserved_files_at 0x1000) [-1; 104; 105; -1; 33] in
  ∃ consumed,
    let data := delivered_bytes consumed in
    [-1; 104; 105; -1; 33] = consumed ++ [33]
    ∧ 2 = Z.of_nat (length data)
    ∧ (length data ≤ 8)%nat
    ∧ [(0%nat, 104); (1%nat, 105); (2%nat, 0)]
      = stores_from 0 data ++ [(length data, 0)].
Proof.
  apply (ser_read_r_no_loss locks_free
           (boot (reserved_files_at 0x1000) [-1; 104; 105; -1; 33]) 8 2
           [(0%nat, 104); (1%nat, 105); (2%nat, 0)]
           (mutex_give
              (set_inp_buffer
                 (log (boot (reserved_files_at 0x1000) [-1; 104; 105; -1; 33])
                    (MutexTake read_mtx TIMEOUT_MAX true)) [33])
              read_mtx)).
  - reflexivity.
  - reflexivity.
Defined.

Lemma ser_output_flush_noop_witness :
  let st := set_write_queue (boot (reserved_files_at 0x1000) [])
              {| q_items := [1; 2; 3]; q_capacity := VEX_SERIAL_BUFFER_SIZE |} in
  ser_output_flush 2 (λ n, n) st = st.
Proof.
  apply (ser_output_flush_noop 2 (λ n, n)
           (set_write_queue (boot (reserved_files_at 0x1000) [])
              {| q_items := [1; 2; 3]; q_capacity := VEX_SERIAL_BUFFER_SIZE |})).
  right. left. vm_compute. reflexivity.
Defined.

(** * Properties of the ADI driver *)

Arguments AdiRet {A} v.
Arguments AdiErr {A}.
Arguments AdiEinval {A}.

(** [transform_adi_port] by the range its argument lies in. *)
Lemma transform_adi_port_cases (port : Z) :
  0 ≤ port < 256 →
  (97 ≤ port ≤ 104 ∧ transform_adi_port port = Some (port - 97))
  ∨ (65 ≤ port ≤ 72 ∧ transform_adi_port port = Some (port - 65))
  ∨ (1 ≤ port ≤ 8 ∧ transform_adi_port port = Some (port - 1))
  ∨ (¬ (97 ≤ port ≤ 104) ∧ ¬ (65 ≤ port ≤ 72) ∧ ¬ (1 ≤ port ≤ 8)
     ∧ transform_adi_port port = None).
Proof.
  intros Hport. unfold transform_adi_port, uint8.
  destruct (Z.leb_spec 97 port) as [Ha|Ha], (Z.leb_spec port 104) as [Hh|Hh];
    simpl.
  - left. split; [lia|]. rewrite Z.mod_small by lia.
    destruct (Z.gtb_spec (port - 97) 7); [lia|].
    destruct (Z.ltb_spec (port - 97) 0); [lia|]. done.
  - right. right. right. repeat split; try lia.
    destruct (Z.leb_spec 65 port), (Z.leb_spec port 72); try lia. simpl.
    rewrite Z.mod_small by lia.
    destruct (Z.gtb_spec (port - 1) 7); [done|lia].
  - destruct (Z.leb_spec 65 port) as [HA|HA], (Z.leb_spec port 72) as [HH|HH];
      simpl.
    + right. left. split; [lia|]. rewrite Z.mod_small by lia.
      destruct (Z.gtb_spec (port - 65) 7); [lia|].
      destruct (Z.ltb_spec (port - 65) 0); [lia|]. done.
    + right. right. right. repeat split; try lia.
      rewrite Z.mod_small by lia.
      destruct (Z.gtb_spec (port - 1) 7); [done|lia].
    + destruct (Z.eq_dec port 0) as [->|Hnz].
      * right. right. right. by repeat split; try lia.
      * rewrite Z.mod_small by lia.
        destruct (Z.gtb_spec (port - 1) 7) as [Hgt|Hle]; simpl.
        -- right. right. right. repeat split; lia.
        -- right. right. left. split; [lia|].
           destruct (Z.ltb_spec (port - 1) 0); [lia|done].
    + lia.
  - lia.
Qed.

(** X16: [transform_adi_port] accepts exactly the names of the eight ports:
    the numbers 1 to 8 and the letters a to h in either case, and it
    yields the index from 0 to 7 that the name stands for.  Every other
    [uint8_t] value is rejected, 0 among them, which wraps to 255. *)
Theorem transform_adi_port_names (port p : Z) :
  0 ≤ port < 256 →
  (transform_adi_port port = Some p ↔ adi_port_name port p)
  ∧ (transform_adi_port port = Some p → 0 ≤ p ≤ 7)
  ∧ (transform_adi_port port = None ↔ ∀ q, ¬ adi_port_name port q).
Proof.
  intros Hport. unfold adi_port_name.
  destruct (transform_adi_port_cases port Hport)
    as [[Hr ->]|[[Hr ->]|[[Hr ->]|(H1 & H2 & H3 & ->)]]].
  - split; [|split].
    + split; [intros [= <-]; lia|intros [?|[?|?]]; f_equal; lia].
    + intros [= <-]. lia.
    + split; [done|]. intros H. exfalso. apply (H (port - 97)). lia.
  - split; [|split].
    + split; [intros [= <-]; lia|intros [?|[?|?]]; f_equal; lia].
    + intros [= <-]. lia.
    + split; [done|]. intros H. exfalso. apply (H (port - 65)). lia.
  - split; [|split].
    + split; [intros [= <-]; lia|intros [?|[?|?]]; f_equal; lia].
    + intros [= <-]. lia.
    + split; [done|]. intros H. exfalso. apply (H (port - 1)). lia.
  - split; [|split].
    + split; [done|]. lia.
    + done.
    + split; [|done]. intros _ q. lia.
Qed.

Lemma adi_port_name_transform (port p : Z) :
  adi_port_name port p → transform_adi_port port = Some p ∧ 0 ≤ p ≤ 7.
Proof.
  intros Hname.
  assert (Hport : 0 ≤ port < 256) by (unfold adi_port_name in Hname; lia).
  unfold adi_port_name in Hname.
  destruct (transform_adi_port_cases port Hport)
    as [[Hr ->]|[[Hr ->]|[[Hr ->]|(H1 & H2 & H3 & ->)]]];
    (split; [f_equal|]); lia.
Qed.

Lemma no_adi_port_name_transform (port : Z) :
  0 ≤ port < 256 → (∀ q, ¬ adi_port_name port q) → transform_adi_port port = None.
Proof.
  intros Hport Hno.
  destruct (transform_adi_port_cases port Hport)
    as [[Hr _]|[[Hr _]|[[Hr _]|(_ & _ & _ & ->)]]]; [| | |done]; exfalso.
  - apply (Hno (port - 97)). unfold adi_port_name. lia.
  - apply (Hno (port - 65)). unfold adi_port_name. lia.
  - apply (Hno (port - 1)). unfold adi_port_name. lia.
Qed.

(** [validate_twowire] on two port indices: it lets a pair through with
    its lower index exactly when the two are next to each other and the
    lower one is even; it sets [EINVAL] exactly when they are more than one
    apart. *)
Lemma validate_twowire_cases (a b : Z) :
  0 ≤ a ≤ 7 → 0 ≤ b ≤ 7 →
  (twowire_pair a b ∧ validate_twowire a b = AdiRet (Z.min a b))
  ∨ (¬ twowire_pair a b
     ∧ validate_twowire a b = if Z.abs (a - b) >? 1 then AdiEinval else AdiErr).
Proof.
  intros Ha Hb. unfold twowire_pair.
  assert (Hcases : a = 0 ∨ a = 1 ∨ a = 2 ∨ a = 3 ∨ a = 4 ∨ a = 5 ∨ a = 6 ∨ a = 7)
    by lia.
  assert (Hcases' : b = 0 ∨ b = 1 ∨ b = 2 ∨ b = 3 ∨ b = 4 ∨ b = 5 ∨ b = 6 ∨ b = 7)
    by lia.
  destruct Hcases as [->|[->|[->|[->|[->|[->|[->| ->]]]]]]];
    destruct Hcases' as [->|[->|[->|[->|[->|[->|[->| ->]]]]]]];
    vm_compute;
    first [ left; repeat split; reflexivity
          | right; split;
            [intros [H1 H2]; first [discriminate H1|discriminate H2]
            |reflexivity] ].
Qed.

(** X17: A port argument that is no name of a port makes every function that
    translates its port return [PROS_ERR] with [EINVAL], before any access
    to the device: the state is as it was. *)
Theorem adi_bad_port_rejected
  (st : adi_t) (port : Z) (type : adi_port_config_e_t) (value speed : Z)
  (level : bool) :
  0 ≤ port < 256 →
  (∀ q, ¬ adi_port_name port q) →
  adi_port_set_config st port type = (AdiEinval, st)
  ∧ adi_port_get_config st port = (AdiEinval, st)
  ∧ adi_port_set_value st port value = (AdiEinval, st)
  ∧ adi_port_get_value st port = (AdiEinval, st)
  ∧ adi_analog_calibrate st port = (AdiEinval, st)
  ∧ adi_analog_read st port = (AdiEinval, st)
  ∧ adi_analog_read_calibrated st port = (AdiEinval, st)
  ∧ adi_analog_read_calibrated_HR st port = (AdiEinval, st)
  ∧ adi_digital_read st port = (AdiEinval, st)
  ∧ adi_digital_get_new_press st port = (AdiEinval, st)
  ∧ adi_digital_write st port level = (AdiEinval, st)
  ∧ adi_motor_set st port speed = (AdiEinval, st)
  ∧ adi_motor_get st port = (AdiEinval, st)
  ∧ (∀ other, adi_encoder_init st port other level = (AdiEinval, st))
  ∧ (∀ other, adi_ultrasonic_init st port other = (AdiEinval, st)).
Proof.
  intros Hport Hno. apply no_adi_port_name_transform in Hno; [|done].
  unfold adi_port_set_config, adi_port_get_config, adi_port_set_value,
    adi_port_get_value, adi_analog_calibrate, adi_analog_read,
    adi_analog_read_calibrated, adi_analog_read_calibrated_HR, adi_digital_read,
    adi_digital_get_new_press, adi_digital_write, adi_motor_set, adi_motor_get,
    adi_encoder_init, adi_ultrasonic_init.
  rewrite Hno. repeat split.
Qed.

(** X18: [adi_pin_mode] returns 1 for each of its four modes whatever comes of
    the configuration call it makes.  When the port is no name of a port,
    that call comes back with [EINVAL] set and nothing is handed to the
    device, yet the function returns 1; when the port is a name and the
    internal port is claimed, the device is handed the configuration of
    the mode for the port's index; when it is not claimed, nothing is
    handed to the device.  Only an unknown mode makes the function fail,
    with [EINVAL] and without any call. *)
Theorem adi_pin_mode_reports_success
  (st : adi_t) (port : Z) (mode : adi_pin_mode_t) :
  0 ≤ port < 256 →
  match pin_mode_config mode with
  | None => adi_pin_mode st port mode = (AdiEinval, None, st)
  | Some type =>
      ((∀ q, ¬ adi_port_name port q) →
       adi_pin_mode st port mode = (AdiRet 1, Some AdiEinval, st))
      ∧ (∀ p, adi_port_name port p →
              adi_set_answer st = 1 →
              adi_pin_mode st port mode
              = (AdiRet 1, Some (AdiRet 1),
                 adi_with_call st (PortConfigSet p type)))
      ∧ (∀ p, adi_port_name port p →
              adi_set_answer st ≠ 1 →
              (adi_pin_mode st port mode).1.1 = AdiRet 1
              ∧ (adi_pin_mode st port mode).2 = st)
  end.
Proof.
  intros Hport.
  destruct mode; simpl; try done;
    (split; [|split];
     [ intros Hno; unfold adi_port_set_config;
       by rewrite (no_adi_port_name_transform _ Hport Hno)
     | intros p [Hp _]%adi_port_name_transform Hans;
       unfold adi_port_set_config, _adi_port_set_config;
       by rewrite Hp, Hans
     | intros p [Hp _]%adi_port_name_transform Hans;
       unfold adi_port_set_config, _adi_port_set_config;
       rewrite Hp; by destruct (Z.eqb_spec (adi_set_answer st) 1) ]).
Qed.

(** X19: [adi_encoder_init] sets an encoder up exactly for two ports that are
    next to each other with the lower one at an even index, that is A-B,
    C-D, E-F or G-H, in either order: it then notes the direction in the
    scratch area and, with the internal port claimed, asks the device for
    the encoder configuration of the lower port and returns that port's
    index; with the internal port not claimed nothing is handed to the
    device.  For any other two ports it returns [PROS_ERR] and leaves
    everything as it was, with [EINVAL] only when the ports are more than
    one apart. *)
Theorem adi_encoder_init_pairs
  (st : adi_t) (port_top port_bottom t b : Z) (reverse : bool) :
  adi_port_name port_top t →
  adi_port_name port_bottom b →
  (twowire_pair t b →
   (adi_set_answer st = 1 →
    adi_encoder_init st port_top port_bottom reverse
    = (AdiRet (Z.min t b),
       adi_with_call (set_encoder_reversed st (Z.min t b) reverse)
         (PortConfigSet (Z.min t b) E_ADI_LEGACY_ENCODER)))
   ∧ (adi_set_answer st ≠ 1 →
      (adi_encoder_init st port_top port_bottom reverse).2
      = set_encoder_reversed st (Z.min t b) reverse))
  ∧ (¬ twowire_pair t b →
     adi_encoder_init st port_top port_bottom reverse
     = (if Z.abs (t - b) >? 1 then AdiEinval else AdiErr, st)).
Proof.
  intros [Ht Hrt]%adi_port_name_transform [Hb Hrb]%adi_port_name_transform.
  unfold adi_encoder_init, _adi_port_set_config. rewrite Ht, Hb.
  destruct (validate_twowire_cases t b Hrt Hrb) as [[Hpair ->]|[Hnot ->]].
  - split; [|done]. intros _. split.
    + intros Hans. simpl. by rewrite Hans.
    + intros Hans. simpl.
      by destruct (Z.eqb_spec (adi_set_answer st) 1).
  - split; [done|]. intros _. by destruct (Z.abs (t - b) >? 1).
Qed.

(** X20: [adi_ultrasonic_init] sets a sensor up exactly when the echo port is
    at an even index and the ping port is the next one: A-B, C-D, E-F or
    G-H in that order only.  With the internal port claimed it then asks
    the device for the ultrasonic configuration of the echo port and
    returns its index; with the internal port not claimed it leaves
    everything as it was.  Otherwise it returns [PROS_ERR] and leaves
    everything as it was, with [EINVAL] only when the ports are more than
    one apart. *)
Theorem adi_ultrasonic_init_pairs
  (st : adi_t) (port_echo port_ping e p : Z) :
  adi_port_name port_echo e →
  adi_port_name port_ping p →
  (p = e + 1 ∧ Z.even e = true →
   (adi_set_answer st = 1 →
    adi_ultrasonic_init st port_echo port_ping
    = (AdiRet e, adi_with_call st (PortConfigSet e E_ADI_LEGACY_ULTRASONIC)))
   ∧ (adi_set_answer st ≠ 1 →
      (adi_ultrasonic_init st port_echo port_ping).2 = st))
  ∧ (¬ (p = e + 1 ∧ Z.even e = true) →
     adi_ultrasonic_init st port_echo port_ping
     = (if Z.abs (e - p) >? 1 then AdiEinval else AdiErr, st)).
Proof.
  intros [He Hre]%adi_port_name_transform [Hp Hrp]%adi_port_name_transform.
  unfold adi_ultrasonic_init, _adi_port_set_config. rewrite He, Hp.
  destruct (validate_twowire_cases e p Hre Hrp) as [[[Habs Hev] ->]|[Hnot ->]].
  - destruct (Z.eqb_spec (Z.min e p) e) as [Hmin|Hmin]; simpl.
    + assert (Hpe : p = e + 1) by lia. rewrite Hmin in Hev.
      split; [|by intros []]. intros _. rewrite Hmin. split.
      * intros Hans. by rewrite Hans.
      * intros Hans. by destruct (Z.eqb_spec (adi_set_answer st) 1).
    + split; [intros [? ?]; lia|]. intros _.
      destruct (Z.gtb_spec (Z.abs (e - p)) 1); [lia|done].
  - split; [|by intros _; destruct (Z.abs (e - p) >? 1)].
    intros [-> Hev]. exfalso. apply Hnot. unfold twowire_pair.
    split; [lia|]. by rewrite Z.min_l by lia.
Qed.

(** *** Scratch bytes *)

Lemma int32_small (x : Z) : - 2 ^ 31 ≤ x < 2 ^ 31 → int32 x = x.
Proof. unfold int32. intros Hx. rewrite Z.mod_small by lia. lia. Qed.

Lemma int32_uint32 (x : Z) : int32 (uint32 x) = int32 x.
Proof.
  unfold int32, uint32. by rewrite Zplus_mod_idemp_l.
Qed.

(** The four bytes of a word put together again give the word. *)
Lemma int32_bytes_roundtrip (x : Z) :
  int32_of_bytes (int32_byte x 0) (int32_byte x 1) (int32_byte x 2) (int32_byte x 3)
  = int32 x.
Proof.
  unfold int32_of_bytes, int32_byte. rewrite <- (int32_uint32 x).
  assert (Hy : 0 ≤ uint32 x < 2 ^ 32) by (unfold uint32; apply Z.mod_pos_bound; lia).
  generalize dependent (uint32 x). intros y Hy. f_equal.
  change (2 ^ (8 * 0)) with 1. change (2 ^ (8 * 1)) with 256.
  change (2 ^ (8 * 2)) with 65536. change (2 ^ (8 * 3)) with 16777216.
  change (2 ^ 8) with 256. change (2 ^ 16) with 65536.
  change (2 ^ 24) with 16777216. change (2 ^ 32) with 4294967296 in Hy.
  rewrite Z.div_1_r.
  replace 65536 with (256 * 256) by done.
  replace 16777216 with (256 * 256 * 256) by done.
  rewrite <- !Z.div_div by lia.
  set (a := Z.div y 256). set (b := Z.div a 256). set (c := Z.div b 256).
  pose proof (Z.div_mod y 256 ltac:(lia)) as Hya. fold a in Hya.
  pose proof (Z.div_mod a 256 ltac:(lia)) as Hab. fold b in Hab.
  pose proof (Z.div_mod b 256 ltac:(lia)) as Hbc. fold c in Hbc.
  pose proof (Z.mod_pos_bound y 256 ltac:(lia)) as Hy0.
  pose proof (Z.mod_pos_bound a 256 ltac:(lia)) as Ha0.
  pose proof (Z.mod_pos_bound b 256 ltac:(lia)) as Hb0.
  assert (Hc : 0 ≤ c < 256) by lia.
  rewrite (Z.mod_small c 256) by done.
  generalize dependent (y `mod` 256). generalize dependent (a `mod` 256).
  generalize dependent (b `mod` 256). intros. lia.
Qed.

(** What [set_analog_calib] stores, [get_analog_calib] reads back, and
    the words of the other ports stay as they are. *)
Lemma get_set_analog_calib (st : adi_t) (port other calib : Z) :
  get_analog_calib (set_analog_calib st port calib) port = int32 calib
  ∧ (other ≠ port →
     get_analog_calib (set_analog_calib st port calib) other
     = get_analog_calib st other).
Proof.
  unfold get_analog_calib, set_analog_calib, pad_store. simpl. split.
  - rewrite <- (int32_bytes_roundtrip calib). unfold int32_of_bytes.
    rewrite !Z.eqb_refl. simpl.
    by repeat match goal with
         | |- context [?a =? ?b] => destruct (Z.eqb_spec a b); try lia
         end.
  - intros Hne. destruct (Z.eqb_spec other port); [done|]. by simpl.
Qed.

(** *** Readings *)

Lemma adi_readings_S (st : adi_t) (port : Z) (n : nat) :
  adi_readings st port (S n)
  = adi_value st (adi_reads st) port
    :: adi_readings (adi_with_reads st (S (adi_reads st))) port n.
Proof.
  unfold adi_readings. simpl. rewrite Nat.add_0_r. f_equal.
  rewrite <- seq_shift, <- list_fmap_compose. apply list_fmap_ext.
  intros i k _. simpl. f_equal. lia.
Qed.

(** The loop of [adi_analog_calibrate] adds the next [n] readings up, as
    long as the sum stays a 32-bit value. *)
Lemma adi_analog_calibrate_loop_sum (port : Z) (n : nat) :
  ∀ (total : Z) (st : adi_t),
    0 ≤ total →
    Forall (λ r, 0 ≤ r < 2 ^ 22) (adi_readings st port n) →
    total + Z.of_nat n * 2 ^ 22 ≤ 2 ^ 32 →
    adi_analog_calibrate_loop n total st port
    = (total + sumZ (adi_readings st port n),
       adi_with_reads st (adi_reads st + n))
    ∧ 0 ≤ sumZ (adi_readings st port n) ≤ Z.of_nat n * (2 ^ 22 - 1).
Proof.
  induction n as [|n IH]; intros total st Htotal Hrange Hfit.
  - simpl. rewrite Z.add_0_r, Nat.add_0_r. split; [by destruct st|done].
  - rewrite adi_readings_S in *. apply Forall_cons in Hrange as [Hr Hrange].
    simpl. unfold uint32. rewrite Z.mod_small by lia.
    destruct (IH (total + adi_value st (adi_reads st) port)
                (adi_with_reads st (S (adi_reads st)))) as [-> Hsum];
      [lia|done|lia|].
    split; [|lia]. f_equal; [lia|].
    unfold adi_with_reads. simpl. f_equal. lia.
Qed.

(** [adi_analog_calibrate] on a port it accepts, with readings from 0 up
    to [2 ^ 22]: the value it returns and the state it leaves. *)
Lemma adi_analog_calibrate_run (st : adi_t) (port p : Z) :
  adi_port_name port p →
  validate_analog st p = true →
  Forall (λ r, 0 ≤ r < 2 ^ 22) (adi_readings st p 512) →
  let total := sumZ (adi_readings st p 512) in
  adi_analog_calibrate st port
  = (AdiRet ((total + 256) `div` 512),
     set_analog_calib (adi_with_reads st (adi_reads st + 512)) p
       ((total + 16) `div` 32))
  ∧ 0 ≤ total < 2 ^ 31.
Proof.
  intros [Hp _]%adi_port_name_transform Hcfg Hrange total.
  destruct (adi_analog_calibrate_loop_sum p 512 0 st) as [Hloop Hsum];
    [done|done|done|]. fold total in Hloop, Hsum.
  assert (Htotal : 0 ≤ total < 2 ^ 31) by lia.
  split; [|done].
  unfold adi_analog_calibrate. rewrite Hp, Hcfg. simpl negb. cbv iota.
  rewrite Hloop. rewrite Z.add_0_l.
  unfold uint32. rewrite !Z.mod_small by lia.
  rewrite !Z.shiftr_div_pow2 by lia.
  change (2 ^ 5) with 32. change (2 ^ 9) with 512.
  assert (H32 : 0 ≤ (total + 16) `div` 32 < 2 ^ 31).
  { split; [apply Z.div_pos; lia|]. apply Z.div_lt_upper_bound; lia. }
  assert (H512 : 0 ≤ (total + 256) `div` 512 < 2 ^ 31).
  { split; [apply Z.div_pos; lia|]. apply Z.div_lt_upper_bound; lia. }
  by rewrite !int32_small by lia.
Qed.

(** X21: [adi_analog_calibrate] on a port configured as an analog input, with
    512 readings from 0 up to [2 ^ 22]: it takes exactly these readings,
    returns their mean rounded to the nearest integer, hands nothing to
    the device, and stores for the port the mean in sixteenths, rounded. *)
Theorem adi_analog_calibrate_mean (st : adi_t) (port p : Z) :
  adi_port_name port p →
  validate_analog st p = true →
  Forall (λ r, 0 ≤ r < 2 ^ 22) (adi_readings st p 512) →
  let total := sumZ (adi_readings st p 512) in
  let r := adi_analog_calibrate st port in
  r.1 = AdiRet ((total + 256) `div` 512)
  ∧ (∀ mean, r.1 = AdiRet mean → - 256 ≤ total - 512 * mean < 256)
  ∧ get_analog_calib r.2 p = (total + 16) `div` 32
  ∧ (∀ other, other ≠ p → get_analog_calib r.2 other = get_analog_calib st other)
  ∧ adi_reads r.2 = (adi_reads st + 512)%nat
  ∧ adi_calls r.2 = adi_calls st.
Proof.
  intros Hname Hcfg Hrange total r.
  destruct (adi_analog_calibrate_run st port p Hname Hcfg Hrange) as [Hrun Htotal].
  fold total in Hrun, Htotal. subst r. rewrite Hrun. simpl.
  split; [done|]. split.
  { intros mean [= <-].
    pose proof (Z.div_mod (total + 256) 512 ltac:(lia)).
    pose proof (Z.mod_pos_bound (total + 256) 512 ltac:(lia)). lia. }
  destruct (get_set_analog_calib (adi_with_reads st (adi_reads st + 512)) p p
              ((total + 16) `div` 32)) as [Hget _].
  split.
  { rewrite Hget. apply int32_small.
    split; [transitivity 0; [lia|apply Z.div_pos; lia]|].
    apply Z.div_lt_upper_bound; lia. }
  split; [|done]. intros other Hne.
  by destruct (get_set_analog_calib (adi_with_reads st (adi_reads st + 512)) p other
                 ((total + 16) `div` 32)) as [_ ->].
Qed.

(** X22: After [adi_analog_calibrate], the calibrated reads of the same port
    subtract the calibration from the next reading [v]:
    [adi_analog_read_calibrated] returns [v] less the mean of the
    calibration readings, and [adi_analog_read_calibrated_HR] returns
    sixteen times [v] less the mean in sixteenths. *)
Theorem adi_analog_calibrate_then_read (st : adi_t) (port p : Z) :
  adi_port_name port p →
  validate_analog st p = true →
  Forall (λ r, 0 ≤ r < 2 ^ 22) (adi_readings st p 512) →
  let total := sumZ (adi_readings st p 512) in
  let st' := (adi_analog_calibrate st port).2 in
  let v := adi_value st (adi_reads st + 512) p in
  0 ≤ v < 2 ^ 22 →
  (adi_analog_read_calibrated st' port).1 = AdiRet (v - (total + 16) `div` 512)
  ∧ (adi_analog_read_calibrated_HR st' port).1
    = AdiRet (16 * v - (total + 16) `div` 32).
Proof.
  intros Hname Hcfg Hrange total st' v Hv.
  destruct (adi_analog_calibrate_run st port p Hname Hcfg Hrange) as [Hrun Htotal].
  fold total in Hrun, Htotal. subst st'. rewrite Hrun. simpl.
  apply adi_port_name_transform in Hname as [Hp _].
  set (st1 := set_analog_calib _ _ _).
  assert (Hcfg1 : validate_analog st1 p = true) by done.
  assert (Hget : get_analog_calib st1 p = (total + 16) `div` 32).
  { destruct (get_set_analog_calib (adi_with_reads st (adi_reads st + 512)) p p
                ((total + 16) `div` 32)) as [Hget _].
    unfold st1. rewrite Hget. apply int32_small.
    split; [transitivity 0; [lia|apply Z.div_pos; lia]|].
    apply Z.div_lt_upper_bound; lia. }
  assert (H32 : 0 ≤ (total + 16) `div` 32 < 2 ^ 27).
  { split; [apply Z.div_pos; lia|]. apply Z.div_lt_upper_bound; lia. }
  unfold adi_analog_read_calibrated, adi_analog_read_calibrated_HR.
  rewrite Hp, Hcfg1. simpl negb. cbv iota. simpl.
  change (get_analog_calib
            (adi_with_reads st1 (S (adi_reads st + 512))) p)
    with (get_analog_calib st1 p).
  rewrite Hget. fold v.
  rewrite Z.shiftr_div_pow2, Z.shiftl_mul_pow2 by lia.
  change (2 ^ 4) with 16. rewrite Z.div_div by lia. change (32 * 16) with 512.
  assert (H512 : 0 ≤ (total + 16) `div` 512 < 2 ^ 23).
  { split; [apply Z.div_pos; lia|]. apply Z.div_lt_upper_bound; lia. }
  rewrite (int32_small (v * 16)) by lia.
  rewrite !int32_small by lia.
  split; [done|]. f_equal. lia.
Qed.

(** One call of [adi_digital_get_new_press] on a port whose flag byte
    holds the [bool] value [was]. *)
Lemma adi_digital_get_new_press_step (st : adi_t) (port p : Z) (was : bool) :
  transform_adi_port port = Some p →
  adi_pad st p (p * 4) = bool_byte was →
  let v := adi_value st (adi_reads st) p in
  let r := adi_digital_get_new_press st port in
  r.1 = AdiRet (if negb (v =? 0) && negb was then 1 else 0)
  ∧ adi_pad r.2 p (p * 4) = bool_byte (negb (v =? 0))
  ∧ adi_value r.2 = adi_value st
  ∧ adi_reads r.2 = S (adi_reads st)
  ∧ adi_calls r.2 = adi_calls st.
Proof.
  intros Hp Hwas v r. subst r. unfold adi_digital_get_new_press.
  rewrite Hp. simpl. fold v.
  unfold get_digital_pressed, set_digital_pressed, byte_bool, pad_store.
  destruct (v =? 0); simpl.
  - rewrite !Z.eqb_refl. simpl. done.
  - rewrite Hwas. destruct was; simpl; [done|].
    rewrite !Z.eqb_refl. simpl. done.
Qed.

(** X23: Polled in a row, [adi_digital_get_new_press] reports each press of
    the button once: a call returns 1 exactly when its reading is not zero
    and the reading of the call before was zero (for the first call: when
    the flag kept for the port was clear), and 0 otherwise.  It hands
    nothing to the device. *)
Theorem adi_digital_get_new_press_edges
  (st : adi_t) (port p : Z) (was : bool) (n : nat) :
  adi_port_name port p →
  adi_pad st p (p * 4) = bool_byte was →
  (adi_poll_new_press n st port).1
  = AdiRet <$> new_presses was (adi_readings st p n)
  ∧ adi_calls (adi_poll_new_press n st port).2 = adi_calls st.
Proof.
  intros [Hp _]%adi_port_name_transform. revert st was.
  induction n as [|n IH]; intros st was Hwas; [done|].
  rewrite adi_readings_S. simpl.
  destruct (adi_digital_get_new_press_step st port p was Hp Hwas)
    as (Hr & Hpad & Hval & Hreads & Hcalls).
  destruct (adi_digital_get_new_press st port) as [r st1]. simpl in *.
  destruct (IH st1 (negb (adi_value st (adi_reads st) p =? 0)) Hpad)
    as [Hrs Hcalls'].
  destruct (adi_poll_new_press n st1 port) as [rs st2]. simpl in *.
  rewrite Hr, Hrs, Hcalls', Hcalls. split; [|done]. do 2 f_equal.
  unfold adi_readings. rewrite Hval, Hreads. done.
Qed.

(** X24: The direction given to [adi_encoder_init] decides the sign of what
    [adi_encoder_get] returns for the encoder that was set up: with the
    port reported as an encoder, the next reading comes back as it is for
    a forward encoder and negated for a reversed one. *)
Theorem adi_encoder_get_after_init
  (st : adi_t) (port_top port_bottom t b : Z) (reverse : bool) :
  adi_port_name port_top t →
  adi_port_name port_bottom b →
  twowire_pair t b →
  adi_set_answer st ≠ 0 →
  adi_config st (Z.min t b) = E_ADI_LEGACY_ENCODER →
  let init := adi_encoder_init st port_top port_bottom reverse in
  let v := adi_value st (adi_reads st) (Z.min t b) in
  init.1 = AdiRet (Z.min t b)
  ∧ (adi_encoder_get init.2 (Z.min t b)).1
    = AdiRet (if reverse then int32 (- v) else v).
Proof.
  intros Ht Hb Hpair Hans Hcfg init v.
  assert (Hrange : 0 ≤ Z.min t b ≤ 7).
  { apply adi_port_name_transform in Ht as [_ ?].
    apply adi_port_name_transform in Hb as [_ ?]. lia. }
  assert (Hinit : init.1 = AdiRet (Z.min t b)
                  ∧ adi_pad init.2
                    = adi_pad (set_encoder_reversed st (Z.min t b) reverse)
                  ∧ adi_config init.2 = adi_config st
                  ∧ adi_value init.2 = adi_value st
                  ∧ adi_reads init.2 = adi_reads st).
  { unfold init. apply adi_port_name_transform in Ht as [Ht Hrt].
    apply adi_port_name_transform in Hb as [Hb Hrb].
    unfold adi_encoder_init, _adi_port_set_config. rewrite Ht, Hb.
    destruct (validate_twowire_cases t b Hrt Hrb) as [[_ ->]|[Hnot _]]; [|done].
    simpl. by destruct (adi_set_answer st =? 1). }
  destruct Hinit as (Hret & Hpad & Hconfig & Hvalue & Hreads).
  split; [done|].
  unfold adi_encoder_get, uint8. rewrite Z.mod_small by lia.
  unfold validate_type, _adi_port_get_config. rewrite Hconfig, Hcfg.
  rewrite bool_decide_eq_true_2 by done. simpl.
  unfold get_encoder_reversed, _adi_port_get_value, byte_bool.
  rewrite Hpad, Hvalue, Hreads. simpl. unfold pad_store.
  rewrite !Z.eqb_refl. simpl. fold v. by destruct reverse.
Qed.

(** *** The ADI properties on concrete runs *)

Lemma transform_adi_port_names_witness :
  (transform_adi_port 99 = Some 2 ↔ adi_port_name 99 2)
  ∧ (transform_adi_port 99 = Some 2 → 0 ≤ 2 ≤ 7)
  ∧ (transform_adi_port 99 = None ↔ ∀ q, ¬ adi_port_name 99 q).
Proof. apply (transform_adi_port_names 99 2). lia. Defined.

Lemma adi_bad_port_rejected_witness :
  let st := adi_bench E_ADI_ANALOG_IN [] in
  adi_port_set_config st 0 E_ADI_ANALOG_IN = (AdiEinval, st)
  ∧ adi_port_get_config st 0 = (AdiEinval, st)
  ∧ adi_port_set_value st 0 5 = (AdiEinval, st)
  ∧ adi_port_get_value st 0 = (AdiEinval, st)
  ∧ adi_analog_calibrate st 0 = (AdiEinval, st)
  ∧ adi_analog_read st 0 = (AdiEinval, st)
  ∧ adi_analog_read_calibrated st 0 = (AdiEinval, st)
  ∧ adi_analog_read_calibrated_HR st 0 = (AdiEinval, st)
  ∧ adi_digital_read st 0 = (AdiEinval, st)
  ∧ adi_digital_get_new_press st 0 = (AdiEinval, st)
  ∧ adi_digital_write st 0 true = (AdiEinval, st)
  ∧ adi_motor_set st 0 100 = (AdiEinval, st)
  ∧ adi_motor_get st 0 = (AdiEinval, st)
  ∧ (∀ other, adi_encoder_init st 0 other true = (AdiEinval, st))
  ∧ (∀ other, adi_ultrasonic_init st 0 other = (AdiEinval, st)).
Proof.
  apply (adi_bad_port_rejected (adi_bench E_ADI_ANALOG_IN []) 0
           E_ADI_ANALOG_IN 5 100 true).
  - lia.
  - intros q. unfold adi_port_name. lia.
Defined.

Lemma adi_pin_mode_reports_success_witness :
  let st := adi_bench E_ADI_TYPE_UNDEFINED [] in
  adi_pin_mode st 9 OUTPUT = (AdiRet 1, Some AdiEinval, st)
  ∧ adi_pin_mode st 66 INPUT_ANALOG
    = (AdiRet 1, Some (AdiRet 1),
       adi_with_call st (PortConfigSet 1 E_ADI_ANALOG_IN))
  ∧ adi_pin_mode st 66 (MODE_OTHER 7) = (AdiEinval, None, st).
Proof.
  split; [|split].
  - apply (adi_pin_mode_reports_success (adi_bench E_ADI_TYPE_UNDEFINED []) 9 OUTPUT).
    + lia.
    + intros q. unfold adi_port_name. lia.
  - apply (adi_pin_mode_reports_success (adi_bench E_ADI_TYPE_UNDEFINED []) 66
             INPUT_ANALOG).
    + lia.
    + unfold adi_port_name. lia.
    + reflexivity.
  - apply (adi_pin_mode_reports_success (adi_bench E_ADI_TYPE_UNDEFINED []) 66
             (MODE_OTHER 7)).
    lia.
Defined.

Lemma adi_encoder_init_pairs_witness :
  let st := adi_bench E_ADI_TYPE_UNDEFINED [] in
  adi_encoder_init st 66 65 true
  = (AdiRet 0,
     adi_with_call (set_encoder_reversed st 0 true)
       (PortConfigSet 0 E_ADI_LEGACY_ENCODER))
  ∧ adi_encoder_init st 2 3 true = (AdiErr, st).
Proof.
  split.
  - apply (adi_encoder_init_pairs (adi_bench E_ADI_TYPE_UNDEFINED []) 66 65 1 0 true).
    + unfold adi_port_name. lia.
    + unfold adi_port_name. lia.
    + unfold twowire_pair. split; reflexivity.
    + reflexivity.
  - apply (adi_encoder_init_pairs (adi_bench E_ADI_TYPE_UNDEFINED []) 2 3 1 2 true).
    + unfold adi_port_name. lia.
    + unfold adi_port_name. lia.
    + unfold twowire_pair. intros [_ H]. discriminate H.
Defined.

Lemma adi_ultrasonic_init_pairs_witness :
  let st := adi_bench E_ADI_TYPE_UNDEFINED [] in
  adi_ultrasonic_init st 1 2
  = (AdiRet 0, adi_with_call st (PortConfigSet 0 E_ADI_LEGACY_ULTRASONIC))
  ∧ adi_ultrasonic_init st 2 1 = (AdiErr, st).
Proof.
  split.
  - apply (adi_ultrasonic_init_pairs (adi_bench E_ADI_TYPE_UNDEFINED []) 1 2 0 1).
    + unfold adi_port_name. lia.
    + unfold adi_port_name. lia.
    + split; reflexivity.
    + reflexivity.
  - apply (adi_ultrasonic_init_pairs (adi_bench E_ADI_TYPE_UNDEFINED []) 2 1 1 0).
    + unfold adi_port_name. lia.
    + unfold adi_port_name. lia.
    + intros [H _]. discriminate H.
Defined.

(** The speed of [adi_motor_set] is taken as an [int8_t]: 200 reaches the
    device as -56, and a port that is not claimed gets no call. *)
Lemma adi_motor_set_example :
  let st := adi_bench E_ADI_LEGACY_PWM [] in
  let unclaimed :=
    {| adi_pad := adi_pad st; adi_config := adi_config st;
       adi_value := adi_value st; adi_set_answer := 0;
       adi_reads := 0; adi_calls := [] |} in
  adi_motor_set st 1 200 = (AdiRet 1, adi_with_call st (PortValueSet 0 (-56)))
  ∧ adi_motor_set st 1 100 = (AdiRet 1, adi_with_call st (PortValueSet 0 100))
  ∧ adi_motor_set unclaimed 1 100 = (AdiRet PROS_ERR, unclaimed).
Proof. repeat split. Qed.

Lemma adi_analog_calibrate_mean_witness :
  let st := adi_steady E_ADI_ANALOG_IN 100 in
  let total := sumZ (adi_readings st 2 512) in
  let r := adi_analog_calibrate st 99 in
  r.1 = AdiRet ((total + 256) `div` 512)
  ∧ (∀ mean, r.1 = AdiRet mean → - 256 ≤ total - 512 * mean < 256)
  ∧ get_analog_calib r.2 2 = (total + 16) `div` 32
  ∧ (∀ other, other ≠ 2 → get_analog_calib r.2 other = get_analog_calib st other)
  ∧ adi_reads r.2 = (adi_reads st + 512)%nat
  ∧ adi_calls r.2 = adi_calls st.
Proof.
  apply (adi_analog_calibrate_mean (adi_steady E_ADI_ANALOG_IN 100) 99 2).
  - unfold adi_port_name. lia.
  - reflexivity.
  - unfold adi_readings. apply Forall_fmap, Forall_forall. intros k _.
    simpl. lia.
Defined.

Lemma adi_analog_calibrate_then_read_witness :
  let st := adi_steady E_ADI_LEGACY_POT 100 in
  let total := sumZ (adi_readings st 2 512) in
  let st' := (adi_analog_calibrate st 3).2 in
  (adi_analog_read_calibrated st' 3).1 = AdiRet (100 - (total + 16) `div` 512)
  ∧ (adi_analog_read_calibrated_HR st' 3).1
    = AdiRet (16 * 100 - (total + 16) `div` 32).
Proof.
  apply (adi_analog_calibrate_then_read (adi_steady E_ADI_LEGACY_POT 100) 3 2).
  - unfold adi_port_name. lia.
  - reflexivity.
  - unfold adi_readings. apply Forall_fmap, Forall_forall. intros k _.
    simpl. lia.
  - simpl. lia.
Defined.

Lemma adi_digital_get_new_press_edges_witness :
  let st := adi_bench E_ADI_DIGITAL_IN [0; 1; 1; 0; 1] in
  (adi_poll_new_press 5 st 97).1
  = AdiRet <$> new_presses false (adi_readings st 0 5)
  ∧ adi_calls (adi_poll_new_press 5 st 97).2 = adi_calls st.
Proof.
  apply (adi_digital_get_new_press_edges
           (adi_bench E_ADI_DIGITAL_IN [0; 1; 1; 0; 1]) 97 0 false 5).
  - unfold adi_port_name. lia.
  - reflexivity.
Defined.

Lemma adi_encoder_get_after_init_witness :
  let st := adi_bench E_ADI_LEGACY_ENCODER [42] in
  let init := adi_encoder_init st 65 66 true in
  init.1 = AdiRet (Z.min 0 1)
  ∧ (adi_encoder_get init.2 (Z.min 0 1)).1
    = AdiRet (if true then int32 (- adi_value st (adi_reads st) (Z.min 0 1))
              else adi_value st (adi_reads st) (Z.min 0 1)).
Proof.
  apply (adi_encoder_get_after_init (adi_bench E_ADI_LEGACY_ENCODER [42])
           65 66 0 1 true).
  - unfold adi_port_name. lia.
  - unfold adi_port_name. lia.
  - unfold twowire_pair. split; reflexivity.
  - simpl. lia.
  - reflexivity.
Defined.
